(** * cdrizzlemap.c : coordinate mapping, polygon intersection and scanline
      limits of the drizzle resampler, embedded in Rocq.

    C [double] values are IEEE binary64 numbers, modelled by Rocq's primitive
    floats (every operation rounds to nearest, ties to even, and no product
    is fused with a sum); C [int] values are modelled by [Z] (signed overflow
    is undefined behaviour in C and is not modelled). Output parameters are returned as
    extra components of the result, and an uninitialised local variable is an
    explicit argument that stands for its indeterminate initial contents. *)

From Stdlib Require Import ZArith List Bool Lia Floats Uint63.
Import ListNotations.

#[local] Set Warnings "-inexact-float".
#[local] Open Scope Z_scope.

(** ** C scalar types *)

Module C.

Definition double := float.

Definition INT_MIN : Z := - 2 ^ 31.
Definition INT_MAX : Z := 2 ^ 31 - 1.

(** [(double) z] for an [int] (exact below 2^53). *)
Definition i2d (z : Z) : double :=
  if z <? 0 then PrimFloat.opp (PrimFloat.of_uint63 (Uint63.of_Z (- z)))
  else PrimFloat.of_uint63 (Uint63.of_Z z).

(** Truncation toward zero of a finite binary64 number. *)
Definition trunc_SF (f : SpecFloat.spec_float) : option Z :=
  match f with
  | SpecFloat.S754_zero _ => Some 0
  | SpecFloat.S754_finite s m e =>
      let mag := if 0 <=? e then Z.shiftl (Z.pos m) e
                 else Z.shiftr (Z.pos m) (- e) in
      Some (if s then - mag else mag)
  | _ => None
  end.

(** [(int) x]: truncation toward zero. Outside the range of [int] (and for
    NaN and infinities) the conversion is undefined in C; the model returns
    what the x86-64 conversion instruction returns there, INT_MIN. *)
Definition d2i (x : double) : Z :=
  match trunc_SF (Prim2SF x) with
  | Some z => if (INT_MIN <=? z) && (z <=? INT_MAX) then z else INT_MIN
  | None => INT_MIN
  end.

(** [npy_isnan]. *)
Definition isnan (x : double) : bool := PrimFloat.is_nan x.

Definition fabs (x : double) : double := PrimFloat.abs x.

(** [copysign(a, b)]: magnitude of [a], sign of [b] (the sign bit of a NaN
    [b] is read as clear). *)
Definition copysign (a b : double) : double :=
  if PrimFloat.get_sign b then PrimFloat.opp (PrimFloat.abs a)
  else PrimFloat.abs a.

(** [round(x)]: nearest integral value, halfway cases away from zero. *)
Definition round (x : double) : double :=
  match Prim2SF x with
  | SpecFloat.S754_finite s m e =>
      if 0 <=? e then x
      else
        let q := Z.shiftr (Z.pos m) (- e) in
        let r := Z.pos m - Z.shiftl q (- e) in
        let mag := if Z.shiftl 1 (- e) <=? 2 * r then q + 1 else q in
        if s then PrimFloat.opp (i2d mag) else i2d mag
  | _ => x
  end.

(** C comparison operators on doubles (all false on NaN). *)
Definition dlt (a b : double) : bool := PrimFloat.ltb a b.
Definition dle (a b : double) : bool := PrimFloat.leb a b.
Definition dgt (a b : double) : bool := PrimFloat.ltb b a.
Definition dge (a b : double) : bool := PrimFloat.leb b a.
Definition deq (a b : double) : bool := PrimFloat.eqb a b.

(** [a % b] of C: the remainder has the sign of the dividend. *)
Definition c_rem (a b : Z) : Z := Z.rem a b.

(** [a / b] of C on [int]: quotient truncated toward zero. *)
Definition c_div (a b : Z) : Z := Z.quot a b.

End C.

Import C.

Declare Scope c_scope.
Delimit Scope c_scope with c.
Notation "a <. b" := (dlt a b) (at level 70, no associativity) : c_scope.
Notation "a <=. b" := (dle a b) (at level 70, no associativity) : c_scope.
Notation "a >. b" := (dgt a b) (at level 70, no associativity) : c_scope.
Notation "a >=. b" := (dge a b) (at level 70, no associativity) : c_scope.
Notation "a ==. b" := (deq a b) (at level 70, no associativity) : c_scope.
#[local] Open Scope c_scope.

(** ** Constants of the translation unit *)

Definition DBL_MIN : double := 0x1p-1022%float.
Definition VERTEX_ATOL : double := 1.0e-12%float.
Definition APPROX_ZERO : double := (1.0e3 * DBL_MIN)%float.
Definition MAX_INV_ERR : double := 0.03%float.

(** Modelled from the spec: the header cdrizzlemap.h, which defines
    IMAGE_OUTLINE_NPTS, is not among the sources; the specification gives the
    polygon capacity as 2 x 8 = 16 vertices. *)
Definition IMAGE_OUTLINE_NPTS : Z := 8.

(** Modelled from the spec: the macros MAX and MIN of cdrizzleutil.h are not
    among the sources; they are the usual two-argument maximum and minimum. *)
Definition MAX (a b : Z) : Z := if a >? b then a else b.
Definition MIN (a b : Z) : Z := if a <? b then a else b.

(** ** Data *)

Record vertex := mkV { vx : double; vy : double }.

(** The pixel map is a numpy array of shape [ndim0 x ndim1 x 2]; [cell j i]
    is the pair stored at row [j], column [i]. The array is only read. *)
Record pixmap_t := mkPixmap {
  ndim0 : Z;
  ndim1 : Z;
  cell : Z -> Z -> double * double
}.

(** The fields of [struct driz_param_t] this file reads; [out_ndim0] and
    [out_ndim1] are the dimensions of [output_data]. *)
Record driz_param_t := mkPar {
  pixmap : pixmap_t;
  xmin : Z;
  xmax : Z;
  ymin : Z;
  ymax : Z;
  out_ndim0 : Z;
  out_ndim1 : Z
}.

(** Modelled from the spec: the macro get_pixmap of cdrizzleutil.h is not
    among the sources; it addresses the pair stored for column [i] of row
    [j], as PyArray_GETPTR3(pixmap, j, i, 0) does in map_pixel_fwd. *)
Definition get_pixmap (pm : pixmap_t) (i j : Z) : double * double :=
  cell pm j i.

(** ** Coordinate mapper *)

Module Mapper.

(** The four cells interpolate_point reads, after clamping the base index. *)
Definition base_index (n2 : Z) (i0 : Z) : Z :=
  if i0 <? 0 then 0 else if i0 >? n2 then n2 else i0.

Definition interpolate_point (par : driz_param_t) (xin yin : double)
  : Z * double * double :=
  let pm := pixmap par in
  let i0 := d2i xin in
  let j0 := d2i yin in
  let nx2 := ndim1 pm - 2 in
  let ny2 := ndim0 pm - 2 in
  let i0 := base_index nx2 i0 in
  let j0 := base_index ny2 j0 in
  let x := (xin - i2d i0)%float in
  let y := (yin - i2d j0)%float in
  let x1 := (1.0 - x)%float in
  let y1 := (1.0 - y)%float in
  let '(f00, g00) := get_pixmap pm i0 j0 in
  let '(f10, g10) := get_pixmap pm (i0 + 1) j0 in
  let '(f01, g01) := get_pixmap pm i0 (j0 + 1) in
  let '(f11, g11) := get_pixmap pm (i0 + 1) (j0 + 1) in
  let xout := (f00 * x1 * y1 + f10 * x * y1 + f01 * x1 * y + f11 * x * y)%float in
  let yout := (g00 * x1 * y1 + g10 * x * y1 + g01 * x1 * y + g11 * x * y)%float in
  if isnan xout || isnan yout then (1, xout, yout) else (0, xout, yout).

(** map_pixel writes xyout[0], returns 1 if it is NaN, and only then goes on
    to xyout[1]. The macro oob_pixel of cdrizzleutil.h, a bounds assertion,
    is not among the sources and has no effect on the result. *)
Definition map_pixel (pm : pixmap_t) (i j : Z) (xyout : double * double)
  : Z * (double * double) :=
  let xyout := (fst (get_pixmap pm i j), snd xyout) in
  if isnan (fst xyout) then (1, xyout)
  else
    let xyout := (fst xyout, snd (get_pixmap pm i j)) in
    if isnan (snd xyout) then (1, xyout) else (0, xyout).

Definition map_pixel_fwd (pm : pixmap_t) (i j : Z) : Z * double * double :=
  let '(x, y) := cell pm j i in
  (if isnan x || isnan y then 1 else 0, x, y).

(** map_point: [xout0] and [yout0] are the indeterminate initial contents of
    the locals xout and yout, which the integral branch never assigns before
    they are copied into xyout. *)
Definition map_point (xout0 yout0 : double) (par : driz_param_t)
  (xyin xyout : double * double) : Z * (double * double) :=
  let xin := fst xyin in
  let yin := snd xyin in
  let i := d2i (fst xyin) in
  let j := d2i (snd xyin) in
  if (i2d i ==. fst xyin) && (i2d j ==. snd xyin) then
    if (i >=? xmin par) && (i <=? xmax par) &&
       (j >=? ymin par) && (j <=? ymax par) then
      let '(status, xyout) := map_pixel (pixmap par) i j xyout in
      let xyout := (xout0, yout0) in
      (status, xyout)
    else (1, xyout)
  else
    let '(status, xout, yout) := interpolate_point par xin yin in
    (status, (xout, yout)).

Definition map_point_new (par : driz_param_t) (xin yin : double)
  : Z * double * double :=
  let i := d2i xin in
  let j := d2i yin in
  if (i2d i ==. xin) && (i2d j ==. yin) then map_pixel_fwd (pixmap par) i j
  else interpolate_point par xin yin.

End Mapper.

(** ** Inverse mapper *)

Module Inverse.

Import Mapper.

(** eval_inversion: [None] is the return code 1 (dist2 not written). *)
Definition eval_inversion (par : driz_param_t) (x y : double)
  (xyref : double * double) : option double :=
  let '(status, xout, yout) := interpolate_point par x y in
  if status =? 0 then
    let dx := (xout - fst xyref)%float in
    let dy := (yout - snd xyref)%float in
    Some (dx * dx + dy * dy)%float
  else None.

Definition gr : double := 0.6180339887498948482%float.
Definition nmax_iter : Z := 50.

(** The locals of invert_pixmap that live across iterations. *)
Record bracket := mkBracket {
  b_xmin : double; b_xmax : double;
  b_ymin : double; b_ymax : double;
  b_dx : double; b_dy : double;
  niter : Z
}.

Definition bracket_init (par : driz_param_t) : bracket :=
  let xmin := (i2d (xmin par) - 0.5)%float in
  let xmax := (i2d (xmax par) + 0.5)%float in
  let ymin := (i2d (ymin par) - 0.5)%float in
  let ymax := (i2d (ymax par) + 0.5)%float in
  mkBracket xmin xmax ymin ymax xmax ymax 0.

(** The condition of the while loop. *)
Definition loop_test (b : bracket) : bool :=
  ((b_dx b >. MAX_INV_ERR) || (b_dy b >. MAX_INV_ERR)) && (niter b <? nmax_iter).

(** One pass through the body; [None] is a return 1 from inside the loop. *)
Definition loop_body (par : driz_param_t) (xyout : double * double)
  (b : bracket) : option bracket :=
  let niter := niter b + 1 in
  let x1 := (b_xmax b - gr * b_dx b)%float in
  let x2 := (b_xmin b + gr * b_dx b)%float in
  let y1 := (b_ymax b - gr * b_dy b)%float in
  let y2 := (b_ymin b + gr * b_dy b)%float in
  match eval_inversion par x1 y1 xyout with None => None | Some d11 =>
  match eval_inversion par x1 y2 xyout with None => None | Some d12 =>
  match eval_inversion par x2 y1 xyout with None => None | Some d21 =>
  match eval_inversion par x2 y2 xyout with None => None | Some d22 =>
    let '(xmin, xmax, ymin, ymax) :=
      if (d11 <. d12) && (d11 <. d21) && (d11 <. d22) then
        (b_xmin b, x2, b_ymin b, y2)
      else if (d12 <. d11) && (d12 <. d21) && (d12 <. d22) then
        (b_xmin b, x2, y1, b_ymax b)
      else if (d21 <. d11) && (d21 <. d12) && (d21 <. d22) then
        (x1, b_xmax b, b_ymin b, y2)
      else
        (x1, b_xmax b, y1, b_ymax b) in
    Some (mkBracket xmin xmax ymin ymax (xmax - xmin)%float (ymax - ymin)%float niter)
  end end end end.

Inductive loop_exit :=
| Done (b : bracket)        (* the loop condition became false *)
| Undefined                 (* return 1 from eval_inversion *)
| Fuel.                     (* the model ran out of fuel *)

(** The while loop; the second component counts executions of the body. *)
Fixpoint golden_loop (fuel : nat) (par : driz_param_t)
  (xyout : double * double) (b : bracket) (count : nat) : loop_exit * nat :=
  if loop_test b then
    match fuel with
    | O => (Fuel, count)
    | S fuel' =>
        match loop_body par xyout b with
        | None => (Undefined, S count)
        | Some b' => golden_loop fuel' par xyout b' (S count)
        end
    end
  else (Done b, count).

Definition center (b : bracket) : double * double :=
  ((0.5 * (b_xmin b + b_xmax b))%float, (0.5 * (b_ymin b + b_ymax b))%float).

(** invert_pixmap: [xyin] is the previous content of the output array, left
    untouched by an early return. [None] only if the fuel were too small. *)
Definition invert_pixmap_fuel (fuel : nat) (par : driz_param_t)
  (xyout xyin : double * double) : option (Z * (double * double)) :=
  match fst (golden_loop fuel par xyout (bracket_init par) 0) with
  | Done b =>
      let xyin := center b in
      if niter b =? nmax_iter then Some (1, xyin) else Some (0, xyin)
  | Undefined => Some (1, xyin)
  | Fuel => None
  end.

Definition invert_pixmap (par : driz_param_t) (xyout xyin : double * double)
  : Z * (double * double) :=
  match invert_pixmap_fuel (Z.to_nat nmax_iter) par xyout xyin with
  | Some r => r
  | None => (1, xyin)
  end.

(** Repeated application of the loop body, as long as the loop condition
    holds: the brackets the loop goes through. *)
Fixpoint bracket_after (n : nat) (par : driz_param_t)
  (xyout : double * double) (b : bracket) : option bracket :=
  match n with
  | O => Some b
  | S n' =>
      if loop_test b then
        match loop_body par xyout b with
        | None => None
        | Some b' => bracket_after n' par xyout b'
        end
      else None
  end.

End Inverse.

(** ** Polygon engine *)

Module Polygon.

(** [struct polygon]: a fixed array [v] of 2 * IMAGE_OUTLINE_NPTS vertices
    and the count [npv] of those in use. [v] is the whole array: the entries
    from index [npv] on are stale contents. *)
Record polygon := mkPoly { v : list vertex; npv : Z }.

Definition capacity : Z := 2 * IMAGE_OUTLINE_NPTS.

Definition vertex0 : vertex := mkV 0%float 0%float.

(** Array read [a[i]]; outside the array (undefined in C) it gives
    [vertex0]. *)
Definition rd (a : list vertex) (i : Z) : vertex :=
  if i <? 0 then vertex0 else nth (Z.to_nat i) a vertex0.

(** Array write [a[i] = x]; outside the array (undefined in C) it does
    nothing. *)
Fixpoint wr_nat {A} (a : list A) (i : nat) (x : A) : list A :=
  match a, i with
  | [], _ => []
  | _ :: t, O => x :: t
  | h :: t, S i' => h :: wr_nat t i' x
  end.

Definition wr {A} (a : list A) (i : Z) (x : A) : list A :=
  if i <? 0 then a else wr_nat a (Z.to_nat i) x.

(** The values 0, 1, ..., n-1 of a loop counter. *)
Definition upto (n : Z) : list Z := map Z.of_nat (seq 0 (Z.to_nat n)).

(** A polygon whose array holds [vs] followed by copies of [junk]. *)
Definition polygon_of (junk : vertex) (vs : list vertex) : polygon :=
  mkPoly (vs ++ repeat junk (Z.to_nat capacity - length vs))
         (Z.of_nat (length vs)).

(** mod of the source ([mod] is reserved in Rocq). The source adds a and
    b in int; the sum is taken here without overflow. *)
Definition mod_ (a b : Z) : Z := c_rem (a + b) b.

Definition equal_vertices (a b : vertex) (atol : double) : bool :=
  (fabs (vx a - vx b)%float <. atol) && (fabs (vy a - vy b)%float <. atol).

Definition area (a b : vertex) : double :=
  (vx a * vy b - vy a * vx b)%float.

Definition is_point_in_hp (pt v_ v : vertex) : bool :=
  (area v pt - area v_ pt - area v v_)%float >=. (- APPROX_ZERO)%float.

Definition is_point_strictly_in_hp (pt v_ v : vertex) : bool :=
  (area v pt - area v_ pt - area v v_)%float >. APPROX_ZERO.

(** is_poly_contained: [iv_] and [iv] are the offsets of the pointers v_ and
    v into q->v; the second argument lists the remaining values of i. *)
Fixpoint is_poly_contained_loop (p q : polygon) (rest : list Z) (iv_ iv : Z)
  : Z :=
  match rest with
  | [] => 1
  | _ :: rest' =>
      if forallb (fun j => is_point_in_hp (rd (v p) j) (rd (v q) iv_) (rd (v q) iv))
                 (upto (npv p))
      then is_poly_contained_loop p q rest' iv (iv + 1)
      else 0
  end.

Definition is_poly_contained (p q : polygon) : Z :=
  is_poly_contained_loop p q (upto (npv q)) (npv q - 1) 0.

Definition append_vertex (p : polygon) (x : vertex) : Z * polygon :=
  if (npv p >? 0) && equal_vertices (rd (v p) (npv p - 1)) x VERTEX_ATOL then
    (0, p)
  else if (npv p >? 0) && equal_vertices (rd (v p) 0) x VERTEX_ATOL then
    (1, p)
  else if npv p >=? 2 * IMAGE_OUTLINE_NPTS then
    (1, p)
  else
    (0, mkPoly (wr (v p) (npv p) x) (npv p + 1)).

(** The loop of simplify_polygon: [ipv_], [ipv] and [ipvnxt] are the
    offsets of pv_, pv and pvnxt into p->v; [hull] is pqhull.v[0..npv-1]. *)
Record simplify_state := mkSimp {
  ipv_ : Z; ipv : Z; ipvnxt : Z; hull : list vertex
}.

Definition simplify_step (p : polygon) (k : Z) (s : simplify_state)
  : simplify_state :=
  let pv_ := rd (v p) (ipv_ s) in
  let pv := rd (v p) (ipv s) in
  let pvnxt := rd (v p) (ipvnxt s) in
  let dp := mkV (vx pvnxt - vx pv_)%float (vy pvnxt - vy pv_)%float in
  let dq := mkV (vx pv - vx pv_)%float (vy pv - vy pv_)%float in
  let hull :=
    if (fabs (area dp dq) >. APPROX_ZERO) &&
       (PrimFloat.sqrt (vx dp * vx dp + vy dp * vy dp)%float >. VERTEX_ATOL)
    then hull s ++ [pv] else hull s in
  mkSimp (ipv s) (ipvnxt s) (mod_ (2 + k) (npv p)) hull.

Definition simplify_hull (p : polygon) : list vertex :=
  hull (fold_left (fun s k => simplify_step p k s) (upto (npv p))
                  (mkSimp (npv p - 1) 0 1 [])).

(** Copying pqhull back overwrites the first entries of p->v. *)
Definition simplify_polygon (p : polygon) : polygon :=
  if npv p <? 3 then p
  else
    let h := simplify_hull p in
    mkPoly (h ++ skipn (length h) (v p)) (Z.of_nat (length h)).

(** orient_ccw: [cm0] is the indeterminate initial content of the local
    cm, onto which the vertex coordinates are accumulated. *)
Definition center_of_mass (cm0 : vertex) (p : polygon) : vertex :=
  let cm := fold_left
              (fun cm k => mkV (vx cm + vx (rd (v p) k))%float
                               (vy cm + vy (rd (v p) k))%float)
              (upto (npv p)) cm0 in
  mkV (vx cm / i2d (npv p))%float (vy cm / i2d (npv p))%float.

Definition swap_step (n : Z) (a : list vertex) (k : Z) : list vertex :=
  let v1 := rd a k in
  let m := n - 1 - k in
  let a := wr a k (rd a m) in
  wr a m v1.

Definition orient_test (cm0 : vertex) (p : polygon) : bool :=
  let cm := center_of_mass cm0 p in
  let v1 := rd (v p) 0 in
  let v2 := rd (v p) 1 in
  let v1 := mkV (vx v1 - vx cm)%float (vy v1 - vy cm)%float in
  let v2 := mkV (vx v2 - vx cm)%float (vy v2 - vy cm)%float in
  area v1 v2 >=. 0.0%float.

Definition orient_ccw (cm0 : vertex) (p : polygon) : polygon :=
  if npv p <? 3 then p
  else if orient_test cm0 p then p
  else mkPoly (fold_left (swap_step (npv p)) (upto (c_div (npv p) 2)) (v p))
              (npv p).

(** The locals of intersect_convex_polygons that live across iterations of
    the edge-tracing loop; [ipv], [ipv_], [iqv], [iqv_] are the offsets of
    the pointers pv, pv_ into p->v and of qv, qv_ into q->v. *)
Record trace := mkTrace {
  ip : Z; iq : Z;
  first_k : Z;
  inside : Z;
  t_ipv : Z; t_ipv_ : Z; t_iqv : Z; t_iqv_ : Z;
  first_intersect : vertex;
  pq : polygon
}.

Definition set_pq (s : trace) (x : polygon) : trace :=
  mkTrace (ip s) (iq s) (first_k s) (inside s) (t_ipv s) (t_ipv_ s)
          (t_iqv s) (t_iqv_ s) (first_intersect s) x.

Definition set_inside (s : trace) (x : Z) : trace :=
  mkTrace (ip s) (iq s) (first_k s) x (t_ipv s) (t_ipv_ s)
          (t_iqv s) (t_iqv_ s) (first_intersect s) (pq s).

Definition set_first (s : trace) (k : Z) (vi : vertex) : trace :=
  mkTrace (ip s) (iq s) k (inside s) (t_ipv s) (t_ipv_ s)
          (t_iqv s) (t_iqv_ s) vi (pq s).

(** ip += 1; pv_ = pv; pv = p->v + mod(ip, n). *)
Definition advance_p (s : trace) (n : Z) : trace :=
  mkTrace (ip s + 1) (iq s) (first_k s) (inside s)
          (mod_ (ip s + 1) n) (t_ipv s) (t_iqv s) (t_iqv_ s)
          (first_intersect s) (pq s).

(** iq += 1; qv_ = qv; qv = q->v + mod(iq, n). *)
Definition advance_q (s : trace) (n : Z) : trace :=
  mkTrace (ip s) (iq s + 1) (first_k s) (inside s)
          (t_ipv s) (t_ipv_ s) (mod_ (iq s + 1) n) (t_iqv s)
          (first_intersect s) (pq s).

(** if (append_vertex(pq, x)) break; the boolean is the break. *)
Definition append_or_break (s : trace) (x : vertex) : trace * bool :=
  let '(r, pq') := append_vertex (pq s) x in
  (set_pq s pq', negb (r =? 0)).

(** One iteration of the edge-tracing loop; the boolean is a break. *)
Definition trace_step (p q : polygon) (k : Z) (s : trace) : trace * bool :=
  let pv := rd (v p) (t_ipv s) in
  let pv_ := rd (v p) (t_ipv_ s) in
  let qv := rd (v q) (t_iqv s) in
  let qv_ := rd (v q) (t_iqv_ s) in
  let dp := mkV (vx pv - vx pv_)%float (vy pv - vy pv_)%float in
  let dq := mkV (vx qv - vx qv_)%float (vy qv - vy qv_)%float in
  let t := ((vy pv_ - vy qv_) * vx dq - (vx pv_ - vx qv_) * vy dq)%float in
  let u := ((vy pv_ - vy qv_) * vx dp - (vx pv_ - vx qv_) * vy dp)%float in
  let signed_area := area dp dq in
  let '(t, u, d) :=
    if signed_area >=. 0.0%float then (t, u, signed_area)
    else ((- t)%float, (- u)%float, (- signed_area)%float) in
  let pv_in_hpdq := is_point_strictly_in_hp qv_ qv pv in
  let qv_in_hpdp := is_point_strictly_in_hp pv_ pv qv in
  (* the intersection of the two edges, if there is one *)
  let '(s, brk) :=
    if (0.0%float <=. t) && (t <=. d) && (0.0%float <=. u) && (u <=. d) &&
       (d >. APPROX_ZERO)
    then
      let t := (t / d)%float in
      let vi := mkV (vx pv_ + (vx pv - vx pv_) * t)%float
                    (vy pv_ + (vy pv - vy pv_) * t)%float in
      let '(s, brk) :=
        if first_k s <? 0 then append_or_break (set_first s k vi) vi
        else if equal_vertices (first_intersect s) vi VERTEX_ATOL then
          if k >? first_k s + 1 then (s, true)
          else (set_first s k (first_intersect s), false)
        else append_or_break s vi in
      if brk then (s, true)
      else if pv_in_hpdq then (set_inside s 1, false)
      else if qv_in_hpdp then (set_inside s (-1), false)
      else (s, false)
    else (s, false) in
  if brk then (s, true)
  else
  (* advance *)
  if (d <. 1.0e-12%float) && negb pv_in_hpdq && negb qv_in_hpdp then
    if inside s =? 1 then (advance_q s (npv q), false)
    else (advance_p s (npv p), false)
  else if signed_area >=. 0.0%float then
    if qv_in_hpdp then
      let '(s, brk) := if inside s =? 1 then append_or_break s pv
                       else (s, false) in
      if brk then (s, true) else (advance_p s (npv p), false)
    else
      let '(s, brk) := if inside s =? -1 then append_or_break s qv
                       else (s, false) in
      if brk then (s, true) else (advance_q s (npv q), false)
  else
    if pv_in_hpdq then
      let '(s, brk) := if inside s =? -1 then append_or_break s qv
                       else (s, false) in
      if brk then (s, true) else (advance_q s (npv q), false)
    else
      let '(s, brk) := if inside s =? 1 then append_or_break s pv
                       else (s, false) in
      if brk then (s, true) else (advance_p s (npv q), false).

(** The for loop over the values [ks] of k, with its breaks. The result
    also gives the number of times the body ran and the list of the states
    at the end of each iteration, last first. *)
Fixpoint trace_loop (p q : polygon) (ks : list Z) (s : trace)
  (count : nat) (log : list trace) : trace * nat * list trace :=
  match ks with
  | [] => (s, count, log)
  | k :: ks' =>
      let '(s', brk) := trace_step p q k s in
      if brk then (s', S count, s' :: log)
      else trace_loop p q ks' s' (S count) (s' :: log)
  end.

(** The state on entry to the loop; [fi0] is the indeterminate initial
    content of first_intersect and [pq0] the polygon the caller passes for
    the result, of which only the array survives pq->npv = 0. *)
Definition trace_init (p q pq0 : polygon) (fi0 : vertex) : trace :=
  mkTrace 0 0 (-2) 0 0 (npv p - 1) 0 (npv q - 1) fi0 (mkPoly (v pq0) 0).

(** k = 0, 1, ..., 2 * (p->npv + q->npv). *)
Definition trace_range (p q : polygon) : list Z :=
  upto (2 * (npv p + npv q) + 1).

(** The general case, after orientation and the containment tests. *)
Definition trace_run (p q pq0 : polygon) (fi0 : vertex)
  : trace * nat * list trace :=
  trace_loop p q (trace_range p q) (trace_init p q pq0 fi0) 0 [].

(** The indeterminate initial contents of the locals of
    intersect_convex_polygons and of the callees' locals. *)
Record locals := mkLocals {
  cm_p : vertex;      (* cm in orient_ccw(p) *)
  cm_q : vertex;      (* cm in orient_ccw(q) *)
  fi0 : vertex        (* first_intersect *)
}.

(** intersect_convex_polygons: the return code and the final *pq. The
    calls of orient_ccw also change p and q in place. *)
Definition intersect_convex_polygons (l : locals) (p q pq0 : polygon)
  : Z * polygon :=
  if (npv p <? 3) || (npv q <? 3) then (1, pq0)
  else
    let p := orient_ccw (cm_p l) p in
    let q := orient_ccw (cm_q l) q in
    if negb (is_poly_contained p q =? 0) then (0, simplify_polygon p)
    else if negb (is_poly_contained q p =? 0) then (0, simplify_polygon q)
    else
      let '(s, _, _) := trace_run p q pq0 (fi0 l) in
      (0, simplify_polygon (pq s)).

(** The number of iterations of the edge-tracing loop the call performs
    (none when the call returns before the loop). *)
Definition intersect_iterations (l : locals) (p q pq0 : polygon) : nat :=
  if (npv p <? 3) || (npv q <? 3) then O
  else
    let p := orient_ccw (cm_p l) p in
    let q := orient_ccw (cm_q l) q in
    if negb (is_poly_contained p q =? 0) then O
    else if negb (is_poly_contained q p =? 0) then O
    else snd (fst (trace_run p q pq0 (fi0 l))).

(** The polygon normalisation of the specification: orientation followed
    by the removal of duplicate vertices and collinear midpoints. *)
Definition normalize (cm0 : vertex) (p : polygon) : polygon :=
  simplify_polygon (orient_ccw cm0 p).

(** The signed area of the specification: the sum of the cross products of
    the consecutive pairs of the vertices in use (the last with the first). *)
Definition signed_area_sum (p : polygon) : double :=
  fold_left (fun acc k =>
               (acc + area (rd (v p) k) (rd (v p) (mod_ (k + 1) (npv p))))%float)
            (upto (npv p)) 0%float.

End Polygon.

(** ** Scanline scanner *)

Module Scanner.

Import Polygon.

Record edge := mkEdge {
  v1 : vertex; v2 : vertex;
  e_m : double; e_b : double; e_c : double;
  e_p : Z
}.

(** [struct scanner]. The pointers left and right are either NULL ([None])
    or point into left_edges and right_edges; they are kept as offsets. *)
Record scanner := mkScanner {
  left_edges : list edge;
  right_edges : list edge;
  left : option Z;
  right : option Z;
  nleft : Z;
  nright : Z;
  min_y : double;
  max_y : double;
  s_xmin : Z; s_xmax : Z; s_ymin : Z; s_ymax : Z;
  overlap_valid : Z
}.

Definition init_edge (v1 v2 : vertex) (position : Z) : edge :=
  let m := ((vx v2 - vx v1) / (vy v2 - vy v1))%float in
  let b := ((vx v1 * vy v2 - vy v1 * vx v2) / (vy v2 - vy v1))%float in
  let c := (b - copysign (0.5 + 0.5 * fabs m) (i2d position))%float in
  mkEdge v1 v2 m b c position.

(** The scan of the vertices for the lowest one: (min_left, min_y). *)
Definition find_min (p : polygon) : Z * double :=
  fold_left (fun '(min_left, min_y) k =>
               if vy (rd (v p) k) <. min_y then (k, vy (rd (v p) k))
               else (min_left, min_y))
            (map (Z.add 1) (upto (npv p - 1)))
            (0, vy (rd (v p) 0)).

Definition find_max (p : polygon) : Z * double :=
  fold_left (fun '(max_right, max_y) k =>
               if vy (rd (v p) k) >. max_y then (k, vy (rd (v p) k))
               else (max_right, max_y))
            (map (Z.add 1) (upto (npv p - 1)))
            (0, vy (rd (v p) 0)).

Definition init_scanner (p : polygon) (s : scanner) (par : driz_param_t)
  : Z * scanner :=
  if npv p <? 3 then
    (1, mkScanner (left_edges s) (right_edges s) None None 0 0
                  (min_y s) (max_y s) (s_xmin s) (s_xmax s) (s_ymin s)
                  (s_ymax s) 0)
  else
    let y_at i := vy (rd (v p) i) in
    let x_at i := vx (rd (v p) i) in
    (* minimum / minima *)
    let '(min_left, min_y) := find_min p in
    let i1 := mod_ (min_left - 1) (npv p) in
    let i2 := mod_ (min_left + 1) (npv p) in
    let min_right := if y_at i1 <. y_at i2 then i1 else i2 in
    let '(min_left, min_right) :=
      if y_at min_right <=. (min_y * (1.0 + copysign VERTEX_ATOL min_y))%float
      then
        if x_at min_left >. x_at min_right then (min_right, min_left)
        else (min_left, min_right)
      else (min_left, min_left) in
    (* maximum / maxima *)
    let '(max_right, max_y) := find_max p in
    let i1 := mod_ (max_right - 1) (npv p) in
    let i2 := mod_ (max_right + 1) (npv p) in
    let max_left := if y_at i1 >. y_at i2 then i1 else i2 in
    let '(max_left, max_right) :=
      if y_at max_left >=. (max_y * (1.0 - copysign VERTEX_ATOL max_y))%float
      then
        if x_at max_left >. x_at max_right then (max_right, max_left)
        else (max_left, max_right)
      else (max_right, max_right) in
    (* left chain *)
    let min_left := if max_left >? min_left then min_left + npv p
                    else min_left in
    let nleft := min_left - max_left in
    let left_edges :=
      fold_left (fun es k =>
                   let i1 := mod_ (min_left - k) (npv p) in
                   let i2 := mod_ (i1 - 1) (npv p) in
                   wr es k (init_edge (rd (v p) i1) (rd (v p) i2) (-1)))
                (upto nleft) (left_edges s) in
    (* right chain *)
    let max_right := if max_right <? min_right then max_right + npv p
                     else max_right in
    let nright := max_right - min_right in
    let right_edges :=
      fold_left (fun es k =>
                   let i1 := mod_ (min_right + k) (npv p) in
                   let i2 := mod_ (i1 + 1) (npv p) in
                   wr es k (init_edge (rd (v p) i1) (rd (v p) i2) 1))
                (upto nright) (right_edges s) in
    (0, mkScanner left_edges right_edges (Some 0) (Some 0) nleft nright
                  min_y max_y (xmin par) (xmax par) (ymin par) (ymax par)
                  (overlap_valid s)).

(** The outcome of one of the while loops of get_scanline_limits. *)
Inductive skip :=
| At (i : Z) (e : edge)   (* the loop stopped with the pointer at offset i *)
| Exhausted               (* the pointer was at the last edge: return 1 *)
| Outside.                (* an edge was read outside the array: undefined *)

(** while (test on the edge at ptr) { if (ptr == last) return 1; ++ptr; }
    where [rest] is the part of the array from the pointer on. *)
Fixpoint skip_from (test : edge -> bool) (rest : list edge) (i last : Z)
  : skip :=
  match rest with
  | [] => Outside
  | e :: rest' =>
      if test e then
        if i =? last then Exhausted else skip_from test rest' (i + 1) last
      else At i e
  end.

Definition skip_edges (test : edge -> bool) (edges : list edge) (i last : Z)
  : skip :=
  if i <? 0 then Outside
  else skip_from test (skipn (Z.to_nat i) edges) i last.

(** s->left = NULL; s->right = NULL. *)
Definition clear (s : scanner) : scanner :=
  mkScanner (left_edges s) (right_edges s) None None (nleft s) (nright s)
            (min_y s) (max_y s) (s_xmin s) (s_xmax s) (s_ymin s) (s_ymax s)
            (overlap_valid s).

Definition set_cursors (s : scanner) (l r : Z) : scanner :=
  mkScanner (left_edges s) (right_edges s) (Some l) (Some r) (nleft s)
            (nright s) (min_y s) (max_y s) (s_xmin s) (s_xmax s) (s_ymin s)
            (s_ymax s) (overlap_valid s).

(** The last part of get_scanline_limits: clipping and rounding. *)
Definition limits (s : scanner) (xlb xlt xrb xrt : double) (x12 : Z * Z)
  : Z * (Z * Z) :=
  let xmin := i2d (s_xmin s) in
  let xmax := i2d (s_xmax s) in
  let clip_lo x := if (s_xmax s >=? s_xmin s) && (x <. xmin) then xmin else x in
  let clip_hi x := if (s_xmax s >=? s_xmin s) && (x >. xmax) then xmax else x in
  let xlb := clip_lo xlb in
  let xlt := clip_lo xlt in
  let xrb := clip_hi xrb in
  let xrt := clip_hi xrt in
  if xlt >=. xrt then
    let x12 := (d2i (round xlb), d2i (round xrb)) in
    if xlb >=. xrb then (3, x12) else (0, x12)
  else if xlb >=. xrb then
    (0, (d2i (round xlt), d2i (round xrt)))
  else
    (0, (d2i (round (if xlb >. xlt then xlb else xlt)),
         d2i (round (if xrb <. xrt then xrb else xrt)))).

(** get_scanline_limits: the return code, the scanner after the call and
    the contents of *x1 and *x2 ([x12] before the call). [None] when the
    call reads an edge outside the arrays of the scanner. *)
Definition get_scanline_limits (s : scanner) (y : Z) (x12 : Z * Z)
  : option (Z * scanner * (Z * Z)) :=
  let el_max := nleft s - 1 in
  let er_max := nright s - 1 in
  if (s_ymax s >=? s_ymin s) && ((y <? 0) || (y >? s_ymax s)) then
    Some (2, s, x12)
  else
    let pyb := (i2d y - 0.5)%float in
    let pyt := (i2d y + 0.5)%float in
    if (pyt <=. min_y s) || (pyb >=. (max_y s + i2d 1)%float) then
      Some (2, s, x12)
    else
      match left s, right s with
      | Some l, Some r =>
        let below e := pyb >. vy (v2 e) in
        let above e := pyt >. (vy (v2 e) + 0.5 + MAX_INV_ERR)%float in
        match skip_edges below (left_edges s) l el_max with
        | Outside => None
        | Exhausted => Some (1, clear s, x12)
        | At l el =>
        match skip_edges below (right_edges s) r er_max with
        | Outside => None
        | Exhausted => Some (1, clear s, x12)
        | At r er =>
          let xlb := (e_m el * i2d y + e_c el - MAX_INV_ERR)%float in
          let xrb := (e_m er * i2d y + e_c er + MAX_INV_ERR)%float in
          match skip_edges above (left_edges s) l el_max with
          | Outside => None
          | Exhausted => Some (1, clear s, x12)
          | At l el =>
          match skip_edges above (right_edges s) r er_max with
          | Outside => None
          | Exhausted => Some (1, clear s, x12)
          | At r er =>
            let xlt := (e_m el * i2d y + e_c el - MAX_INV_ERR)%float in
            let xrt := (e_m er * i2d y + e_c er + MAX_INV_ERR)%float in
            let '(code, x12) := limits s xlb xlt xrb xrt x12 in
            Some (code, set_cursors s l r, x12)
          end end
        end end
      | _, _ => Some (1, s, x12)
      end.

(** A sequence of calls with the rows [ys]: the return codes, in order.
    [None] when one of the calls is undefined. *)
Fixpoint scan_rows (s : scanner) (ys : list Z) (x12 : Z * Z)
  : option (list Z) :=
  match ys with
  | [] => Some []
  | y :: ys' =>
      match get_scanline_limits s y x12 with
      | None => None
      | Some (code, s', x12') =>
          match scan_rows s' ys' x12' with
          | None => None
          | Some codes => Some (code :: codes)
          end
      end
  end.

(** The same sequence of calls: the return code of each call and the
    scanner it leaves. *)
Fixpoint scan_states (s : scanner) (ys : list Z) (x12 : Z * Z)
  : option (list (Z * scanner)) :=
  match ys with
  | [] => Some []
  | y :: ys' =>
      match get_scanline_limits s y x12 with
      | None => None
      | Some (code, s', x12') =>
          match scan_states s' ys' x12' with
          | None => None
          | Some rest => Some ((code, s') :: rest)
          end
      end
  end.

End Scanner.

(** ** Overlap orchestrator *)

Module Overlap.

Import Mapper Inverse Polygon Scanner.

(** map_to_output_vertex: the return code and the vertex written. The
    error message it records on failure is cleared again by
    init_image_scanner and is not modelled. *)
Definition map_to_output_vertex (par : driz_param_t) (x y : double)
  : Z * vertex :=
  let '(status, xo, yo) := map_point_new par x y in
  (if status =? 0 then 0 else 1, mkV xo yo).

(** map_to_input_vertex: the vertex is written only on success. *)
Definition map_to_input_vertex (par : driz_param_t) (x y : double)
  (xyin0 : double * double) (v0 : vertex) : Z * vertex :=
  let '(status, xyin) := invert_pixmap par (x, y) xyin0 in
  if status =? 0 then (0, mkV (fst xyin) (snd xyin)) else (1, v0).

(** The indeterminate initial contents of the locals of
    init_image_scanner and of its callees. *)
Record frame := mkFrame {
  f_p : polygon;
  f_q : polygon;
  f_pq : polygon;
  f_inpq : polygon;
  f_xyin : double * double;
  f_locals : locals;
  f_cm : vertex
}.

(** The bounding box of the input image, written over inpq. *)
Definition input_box (par : driz_param_t) (inpq0 : polygon) : polygon :=
  let x0 := (i2d (xmin par) - 0.5)%float in
  let y0 := (i2d (ymin par) - 0.5)%float in
  let x1 := (i2d (xmax par) + 0.5)%float in
  let y2 := (i2d (ymax par) + 0.5)%float in
  let a := wr (v inpq0) 0 (mkV x0 y0) in
  let a := wr a 1 (mkV x1 y0) in
  let a := wr a 2 (mkV x1 y2) in
  let a := wr a 3 (mkV x0 y2) in
  mkPoly a 4.

(** The bounding box of the output image. *)
Definition output_box (par : driz_param_t) (q0 : polygon) : polygon :=
  let w := (i2d (out_ndim1 par) - 0.5)%float in
  let h := (i2d (out_ndim0 par) - 0.5)%float in
  let a := wr (v q0) 0 (mkV (-0.5)%float (-0.5)%float) in
  let a := wr a 1 (mkV w (-0.5)%float) in
  let a := wr a 2 (mkV w h) in
  let a := wr a 3 (mkV (-0.5)%float h) in
  mkPoly a 4.

(** The four calls of map_to_output_vertex joined by ||: the array of p
    after them, or [None] as soon as one of them fails. *)
Fixpoint map_corners (par : driz_param_t) (inpq : polygon) (ks : list Z)
  (a : list vertex) : option (list vertex) :=
  match ks with
  | [] => Some a
  | k :: ks' =>
      let c := rd (v inpq) k in
      let '(r, x) := map_to_output_vertex par (vx c) (vy c) in
      if r =? 0 then map_corners par inpq ks' (wr a k x) else None
  end.

(** The loop that maps the vertices of pq back to the input frame: the array
    of inpq after it and whether every inversion succeeded. *)
Fixpoint map_back (par : driz_param_t) (pq : polygon) (xyin0 : double * double)
  (ks : list Z) (a : list vertex) : list vertex * bool :=
  match ks with
  | [] => (a, true)
  | k :: ks' =>
      let c := rd (v pq) k in
      let '(r, x) := map_to_input_vertex par (vx c) (vy c) xyin0 (rd a k) in
      if r =? 0 then map_back par pq xyin0 ks' (wr a k x) else (a, false)
  end.

Definition set_overlap_valid (s : scanner) (x : Z) : scanner :=
  mkScanner (left_edges s) (right_edges s) (left s) (right s) (nleft s)
            (nright s) (min_y s) (max_y s) (s_xmin s) (s_xmax s) (s_ymin s)
            (s_ymax s) x.

(** The part of init_image_scanner before the label _setup_scanner: the
    polygon inpq and the scanner at the label. *)
Definition overlap_polygon (fr : frame) (par : driz_param_t) (s : scanner)
  : polygon * scanner :=
  let inpq := input_box par (f_inpq fr) in
  match map_corners par inpq (upto 4) (v (f_p fr)) with
  | None => (inpq, set_overlap_valid s 0)
  | Some a =>
      let p := mkPoly a 4 in
      let q := output_box par (f_q fr) in
      let '(r, pq) := intersect_convex_polygons (f_locals fr) p q (f_pq fr) in
      if negb (r =? 0) then (inpq, set_overlap_valid s 0)
      else
        let '(a, ok) := map_back par pq (f_xyin fr) (upto (npv pq)) (v inpq) in
        if ok then
          (orient_ccw (f_cm fr) (mkPoly a (npv pq)), set_overlap_valid s 1)
        else (mkPoly a (npv inpq), set_overlap_valid s 0)
  end.

(** init_image_scanner: the return code, the scanner, *ymin and *ymax. *)
Definition init_image_scanner (fr : frame) (par : driz_param_t) (s : scanner)
  : Z * scanner * Z * Z :=
  let '(inpq, s) := overlap_polygon fr par s in
  let '(n, s) := init_scanner inpq s par in
  let ymin := MAX 0 (d2i (min_y s + 0.5 + 2.0 * MAX_INV_ERR)%float) in
  let ymax := MIN (s_ymax s) (d2i (max_y s + 2.0 * MAX_INV_ERR)%float) in
  (n, s, ymin, ymax).

(** Whether mapping, intersection and inversion all succeeded, that is,
    whether the label _setup_scanner is reached without a goto. *)
Definition overlap_succeeds (fr : frame) (par : driz_param_t) (s : scanner)
  : bool :=
  overlap_valid (snd (overlap_polygon fr par s)) =? 1.

End Overlap.

(** ** Image section *)

Module ImageSection.

Import Polygon.

(** The values a, a+1, ..., b of a loop counter. *)
Definition range (a b : Z) : list Z := map (Z.add a) (upto (b - a + 1)).

(** !(npy_isnan(pv[0]) || npy_isnan(pv[1])) for the pair of row [j],
    column [i]. *)
Definition defined_cell (pm : pixmap_t) (j i : Z) : bool :=
  negb (isnan (fst (cell pm j i)) || isnan (snd (cell pm j i))).

(** The inner loops: the first column among [cols] whose cell is defined,
    where the loop breaks. *)
Fixpoint first_defined (pm : pixmap_t) (j : Z) (cols : list Z) : option Z :=
  match cols with
  | [] => None
  | i :: cols' =>
      if defined_cell pm j i then Some i else first_defined pm j cols'
  end.

(** The body of the first outer loop, on (imin, jmin). *)
Definition shrink_low (pm : pixmap_t) (i1 i2 : Z) (acc : Z * Z) (j : Z)
  : Z * Z :=
  match first_defined pm j (range i1 i2) with
  | Some i =>
      (if i <? fst acc then i else fst acc,
       if j <? snd acc then j else snd acc)
  | None => acc
  end.

(** The body of the second outer loop, on (imax, jmax). *)
Definition shrink_high (pm : pixmap_t) (i1 i2 : Z) (acc : Z * Z) (j : Z)
  : Z * Z :=
  match first_defined pm j (rev (range i1 i2)) with
  | Some i =>
      (if i >? fst acc then i else fst acc,
       if j >? snd acc then j else snd acc)
  | None => acc
  end.

(** shrink_image_section: the return value and the contents of *xmin,
    *xmax, *ymin, *ymax after the call. *)
Definition shrink_image_section (pm : pixmap_t) (xmin xmax ymin ymax : Z)
  : Z * (Z * Z * Z * Z) :=
  let j1 := ymin in
  let j2 := ymax in
  let i1 := xmin in
  let i2 := xmax in
  let '(imin, jmin) :=
    fold_left (shrink_low pm i1 i2) (range j1 j2) (i2, j2) in
  let '(imax, jmax) :=
    fold_left (shrink_high pm i1 i2) (rev (range j1 j2)) (imin, jmin) in
  (if (imin >=? imax) || (jmin >=? jmax) then 1 else 0,
   (imin, imax, jmin, jmax)).

End ImageSection.

(** ** The specification's vocabulary *)

Module Spec.

Import Mapper.
#[local] Open Scope Z_scope.

(** Bilinear interpolation on the unit square with the fractional weights
    x1 = 1 - x and y1 = 1 - y. *)
Definition bilinear (f00 f10 f01 f11 x y : double) : double :=
  let x1 := (1.0 - x)%float in
  let y1 := (1.0 - y)%float in
  (f00 * x1 * y1 + f10 * x * y1 + f01 * x1 * y + f11 * x * y)%float.

(** The base cell of the interpolation and the fractional offsets. *)
Definition base_x (par : driz_param_t) (xin : double) : Z :=
  base_index (ndim1 (pixmap par) - 2) (d2i xin).
Definition base_y (par : driz_param_t) (yin : double) : Z :=
  base_index (ndim0 (pixmap par) - 2) (d2i yin).

(** The four grid cells that contribute to the interpolation at a point. *)
Definition contributing (par : driz_param_t) (xin yin : double)
  : list (double * double) :=
  let i0 := base_x par xin in
  let j0 := base_y par yin in
  [ get_pixmap (pixmap par) i0 j0; get_pixmap (pixmap par) (i0 + 1) j0;
    get_pixmap (pixmap par) i0 (j0 + 1);
    get_pixmap (pixmap par) (i0 + 1) (j0 + 1) ].

(** A stored pair is undefined when one of its coordinates is NaN. *)
Definition undefined_pair (c : double * double) : bool :=
  isnan (fst c) || isnan (snd c).

(** A coordinate is integral when converting it to int and back gives the
    same value: the test map_point and map_point_new apply. *)
Definition integral (x : double) : bool := i2d (d2i x) ==. x.

(** The offsets of the four edge cursors lie within the vertices in use of
    the polygon they point into. *)
Definition cursors_in_range (p q : Polygon.polygon) (s : Polygon.trace)
  : bool :=
  (0 <=? Polygon.t_ipv s) && (Polygon.t_ipv s <? Polygon.npv p) &&
  (0 <=? Polygon.t_ipv_ s) && (Polygon.t_ipv_ s <? Polygon.npv p) &&
  (0 <=? Polygon.t_iqv s) && (Polygon.t_iqv s <? Polygon.npv q) &&
  (0 <=? Polygon.t_iqv_ s) && (Polygon.t_iqv_ s <? Polygon.npv q).

(** The test of simplify_polygon on the vertex at offset [k]: it is kept
    when the cross product of the chord between its two neighbours with
    the edge into it is above APPROX_ZERO in magnitude and the chord is
    longer than VERTEX_ATOL. *)
Definition kept (p : Polygon.polygon) (k : Z) : bool :=
  let n := Polygon.npv p in
  let pv_ := Polygon.rd (Polygon.v p) ((k - 1) mod n) in
  let pv := Polygon.rd (Polygon.v p) k in
  let pvnxt := Polygon.rd (Polygon.v p) ((k + 1) mod n) in
  let dp := mkV (vx pvnxt - vx pv_)%float (vy pvnxt - vy pv_)%float in
  let dq := mkV (vx pv - vx pv_)%float (vy pv - vy pv_)%float in
  (fabs (Polygon.area dp dq) >. APPROX_ZERO) &&
  (PrimFloat.sqrt (vx dp * vx dp + vy dp * vy dp)%float >. VERTEX_ATOL).

(** The vertex count of a polygon is within the capacity of its array. *)
Definition within_capacity (p : Polygon.polygon) : Prop :=
  0 <= Polygon.npv p <= Polygon.capacity.

(** The edge cursors and counters of the edge-tracing loop are not
    negative, and the cursors are below [m] (into p->v) and [n] (into
    q->v). *)
Definition cursors_below (m n : Z) (s : Polygon.trace) : Prop :=
  0 <= Polygon.ip s /\ 0 <= Polygon.iq s /\
  0 <= Polygon.t_ipv s < m /\ 0 <= Polygon.t_ipv_ s < m /\
  0 <= Polygon.t_iqv s < n /\ 0 <= Polygon.t_iqv_ s < n.

(** The two tests of get_scanline_limits that return 2: the clip rows and
    the rows of the polygon. *)
Definition outside_clip (s : Scanner.scanner) (y : Z) : bool :=
  (Scanner.s_ymax s >=? Scanner.s_ymin s) &&
  ((y <? 0) || (y >? Scanner.s_ymax s)).

Definition outside_span (s : Scanner.scanner) (y : Z) : bool :=
  ((i2d y + 0.5)%float <=. Scanner.min_y s) ||
  ((i2d y - 0.5)%float >=. (Scanner.max_y s + i2d 1)%float).

(** A scanner whose cursors have been cleared. *)
Definition ended (s : Scanner.scanner) : Prop :=
  Scanner.left s = None \/ Scanner.right s = None.

(** [lo] and [hi] are the least and the greatest row of the vertices in
    use of a polygon: both are rows of vertices, no vertex is below [lo]
    and none is above [hi]. *)
Definition y_span (p : Polygon.polygon) (lo hi : double) : Prop :=
  (exists k, 0 <= k < Polygon.npv p /\ lo = vy (Polygon.rd (Polygon.v p) k)) /\
  (exists k, 0 <= k < Polygon.npv p /\ hi = vy (Polygon.rd (Polygon.v p) k)) /\
  forall k, 0 <= k < Polygon.npv p ->
    (vy (Polygon.rd (Polygon.v p) k) <. lo) = false /\
    (vy (Polygon.rd (Polygon.v p) k) >. hi) = false.

Definition in_region (par : driz_param_t) (i j : Z) : bool :=
  (xmin par <=? i) && (i <=? xmax par) && (ymin par <=? j) && (j <=? ymax par).

(** Both half-widths of the bracketing rectangle are at or below the
    inversion tolerance. *)
Definition half_widths_within (b : Inverse.bracket) : bool :=
  ((0.5 * (Inverse.b_xmax b - Inverse.b_xmin b))%float <=. MAX_INV_ERR) &&
  ((0.5 * (Inverse.b_ymax b - Inverse.b_ymin b))%float <=. MAX_INV_ERR).

End Spec.

(** ** Test data *)

Module Data.

Import Mapper Inverse Polygon Scanner Overlap.

Definition V (x y : double) : vertex := mkV x y.

(** A pixel map of [n] rows and columns with cell (j, i) -> (a*i, a*j). *)
Definition scaled_pixmap (n : Z) (a : double) : pixmap_t :=
  mkPixmap n n (fun j i => ((a * i2d i)%float, (a * i2d j)%float)).

(** A 4 x 5 pixel map whose cell in row 2, column 3 stores (10, 20). *)
Definition node_pixmap : pixmap_t :=
  mkPixmap 4 5 (fun j i => if (j =? 2) && (i =? 3) then (10%float, 20%float)
                           else (i2d i, i2d j)).

Definition node_par : driz_param_t := mkPar node_pixmap 0 4 0 3 4 5.

(** The identity map of a 10 x 10 image onto a 10 x 10 output image. *)
Definition identity_par : driz_param_t :=
  mkPar (scaled_pixmap 10 1%float) 0 9 0 9 10 10.

Definition blank_polygon : polygon := polygon_of vertex0 [].

Definition zero_locals : locals := mkLocals vertex0 vertex0 vertex0.

(** Two disjoint triangles, both counter-clockwise. *)
Definition low_triangle : polygon :=
  polygon_of vertex0 [V 0 0; V 1 0; V 0 1]%float.
Definition high_triangle : polygon :=
  polygon_of vertex0 [V 5 5; V 6 5; V 5 6]%float.

(** A counter-clockwise triangle that overlaps a counter-clockwise square:
    the corner (3, 3) of the triangle is inside the square, and the common
    region is the quadrilateral (3,3), (5,3), (5,5), (3.8,5). *)
Definition corner_triangle : polygon :=
  polygon_of vertex0 [V 3 3; V 7 3; V 5 8]%float.
Definition unit4_square : polygon :=
  polygon_of vertex0 [V 1 1; V 5 1; V 5 5; V 1 5]%float.

(** A simple polygon that is not convex, listed counter-clockwise (its
    signed area is positive). *)
Definition dart : polygon :=
  polygon_of vertex0 [V 10 10; V 9 1; V 0 0; V 10 0]%float.

(** A polygon that uses all 16 entries of its array. *)
Definition full_polygon : polygon :=
  polygon_of vertex0
    (map (fun k => V (i2d k) (i2d (k * k))) (upto 16)).

Definition blank_edge : edge :=
  mkEdge vertex0 vertex0 0%float 0%float 0%float 0.

Definition blank_scanner : scanner :=
  mkScanner (repeat blank_edge 16) (repeat blank_edge 16) None None 0 0
            0%float 0%float 0 0 0 0 0.

Definition blank_frame : frame :=
  mkFrame blank_polygon blank_polygon blank_polygon blank_polygon
          (0%float, 0%float) (mkLocals vertex0 vertex0 vertex0) vertex0.

(** The scanner of the square [0, 3] x [0, 3], clipped to rows 0..9. *)
Definition low_square : polygon :=
  polygon_of vertex0 [V 0 0; V 3 0; V 3 3; V 0 3]%float.
Definition low_scanner : scanner :=
  snd (init_scanner low_square blank_scanner identity_par).

(** The scanner of the outline of a 10 x 10 image, with the clip rows
    5..9 configured. *)
Definition clip_par : driz_param_t :=
  mkPar (scaled_pixmap 10 1%float) 0 9 5 9 10 10.
Definition image_box : polygon :=
  polygon_of vertex0
    [V (-0.5) (-0.5); V 9.5 (-0.5); V 9.5 9.5; V (-0.5) 9.5]%float.
Definition clip_scanner : scanner :=
  snd (init_scanner image_box blank_scanner clip_par).

(** A 10 x 10 input image mapped at half scale onto a 5 x 5 output
    image: cell (j, i) -> (i / 2, j / 2). *)
Definition half_par : driz_param_t :=
  mkPar (scaled_pixmap 10 0.5%float) 0 9 0 9 5 5.

(** A 6 x 6 pixel map whose cells are defined in columns 1..4 of rows
    2..3 only. *)
Definition island_pixmap : pixmap_t :=
  mkPixmap 6 6 (fun j i =>
                  if (2 <=? j) && (j <=? 3) && (1 <=? i) && (i <=? 4)
                  then (i2d i, i2d j) else (PrimFloat.nan, PrimFloat.nan)).

(** A pixel map that is undefined everywhere. *)
Definition undefined_pixmap : pixmap_t :=
  mkPixmap 10 10 (fun _ _ => (PrimFloat.nan, PrimFloat.nan)).

Definition undefined_par : driz_param_t :=
  mkPar undefined_pixmap 0 9 0 9 10 10.

End Data.

(** * Properties *)

Import Mapper Inverse Polygon Scanner Overlap Spec Data.

(** ** Floating-point facts *)

Lemma isnan_spec (x : double) :
  isnan x = true <-> Prim2SF x = SpecFloat.S754_nan.
Proof.
  unfold isnan, is_nan. rewrite FloatAxioms.eqb_spec.
  destruct (Prim2SF x) as [s| s | |s m e] eqn:E; simpl.
  - split; discriminate.
  - destruct s; simpl; split; discriminate.
  - split; reflexivity.
  - unfold SpecFloat.SFeqb, SpecFloat.SFcompare.
    destruct s; rewrite Z.compare_refl, Pos.compare_cont_refl; simpl;
      split; discriminate.
Qed.

Lemma isnan_mul_l (a b : double) : isnan a = true -> isnan (a * b)%float = true.
Proof.
  rewrite !isnan_spec, FloatAxioms.mul_spec. intros ->. reflexivity.
Qed.

Lemma isnan_add_l (a b : double) : isnan a = true -> isnan (a + b)%float = true.
Proof.
  rewrite !isnan_spec, FloatAxioms.add_spec. intros ->. reflexivity.
Qed.

Lemma isnan_add_r (a b : double) : isnan b = true -> isnan (a + b)%float = true.
Proof.
  rewrite !isnan_spec, FloatAxioms.add_spec. intros ->.
  destruct (Prim2SF a); reflexivity.
Qed.

(** A NaN in any of the four cell values makes the interpolant NaN. *)
Lemma bilinear_nan (f00 f10 f01 f11 x y : double) :
  isnan f00 || isnan f10 || isnan f01 || isnan f11 = true ->
  isnan (bilinear f00 f10 f01 f11 x y) = true.
Proof.
  unfold bilinear. rewrite !orb_true_iff. intros [[[H | H] | H] | H].
  - do 3 apply isnan_add_l. do 2 apply isnan_mul_l. exact H.
  - do 2 apply isnan_add_l. apply isnan_add_r. do 2 apply isnan_mul_l. exact H.
  - apply isnan_add_l, isnan_add_r. do 2 apply isnan_mul_l. exact H.
  - apply isnan_add_r. do 2 apply isnan_mul_l. exact H.
Qed.

(** ** Coordinate mapper *)

Lemma interpolate_point_eq (par : driz_param_t) (xin yin : double) :
  let i0 := base_x par xin in
  let j0 := base_y par yin in
  let x := (xin - i2d i0)%float in
  let y := (yin - i2d j0)%float in
  let c00 := get_pixmap (pixmap par) i0 j0 in
  let c10 := get_pixmap (pixmap par) (i0 + 1) j0 in
  let c01 := get_pixmap (pixmap par) i0 (j0 + 1) in
  let c11 := get_pixmap (pixmap par) (i0 + 1) (j0 + 1) in
  let xout := bilinear (fst c00) (fst c10) (fst c01) (fst c11) x y in
  let yout := bilinear (snd c00) (snd c10) (snd c01) (snd c11) x y in
  interpolate_point par xin yin =
    (if isnan xout || isnan yout then 1 else 0, xout, yout).
Proof.
  cbv zeta. unfold interpolate_point, base_x, base_y, bilinear.
  destruct (get_pixmap _ (base_index _ (d2i xin)) (base_index _ (d2i yin)))
    as [f00 g00].
  destruct (get_pixmap _ (base_index _ (d2i xin) + 1) (base_index _ (d2i yin)))
    as [f10 g10].
  destruct (get_pixmap _ (base_index _ (d2i xin)) (base_index _ (d2i yin) + 1))
    as [f01 g01].
  destruct (get_pixmap _ (base_index _ (d2i xin) + 1)
              (base_index _ (d2i yin) + 1)) as [f11 g11].
  simpl fst; simpl snd.
  destruct (isnan _ || isnan _); reflexivity.
Qed.

(** C8. interpolate_point returns 1 exactly when one of the four
    contributing cells or one coordinate of the interpolated point is NaN,
    and 0 otherwise; the point it writes is the bilinear interpolant of the
    four cells with the weights x1 = 1 - x and y1 = 1 - y, where x and y
    are the offsets of the input point from the (clamped) base cell. *)
Theorem interpolate_point_undefined_iff (par : driz_param_t) (xin yin : double) :
  let '(status, xout, yout) := interpolate_point par xin yin in
  let x := (xin - i2d (base_x par xin))%float in
  let y := (yin - i2d (base_y par yin))%float in
  (status = 1 <->
     existsb undefined_pair (contributing par xin yin)
       || isnan xout || isnan yout = true) /\
  (status <> 1 -> status = 0) /\
  match contributing par xin yin with
  | [c00; c10; c01; c11] =>
      xout = bilinear (fst c00) (fst c10) (fst c01) (fst c11) x y /\
      yout = bilinear (snd c00) (snd c10) (snd c01) (snd c11) x y
  | _ => False
  end.
Proof.
  pose proof (interpolate_point_eq par xin yin) as E. cbv zeta in E.
  rewrite E. clear E. unfold contributing.
  set (c00 := get_pixmap _ (base_x par xin) (base_y par yin)).
  set (c10 := get_pixmap _ (base_x par xin + 1) (base_y par yin)).
  set (c01 := get_pixmap _ (base_x par xin) (base_y par yin + 1)).
  set (c11 := get_pixmap _ (base_x par xin + 1) (base_y par yin + 1)).
  set (x := (xin - _)%float). set (y := (yin - _)%float).
  set (xout := bilinear (fst c00) _ _ _ x y).
  set (yout := bilinear (snd c00) _ _ _ x y).
  assert (N : existsb undefined_pair [c00; c10; c01; c11] = true ->
              isnan xout || isnan yout = true).
  { simpl. unfold undefined_pair. rewrite !orb_true_iff.
    intros H.
    assert (Hx : isnan (fst c00) || isnan (fst c10) || isnan (fst c01)
                 || isnan (fst c11) = true \/
                 isnan (snd c00) || isnan (snd c10) || isnan (snd c01)
                 || isnan (snd c11) = true).
    { rewrite !orb_true_iff. intuition discriminate. }
    destruct Hx as [Hx | Hy].
    - left. apply bilinear_nan, Hx.
    - right. apply bilinear_nan, Hy. }
  split; [| split; [| split; reflexivity]].
  - destruct (isnan xout || isnan yout) eqn:R.
    + split; [intros _ | reflexivity].
      rewrite <- orb_assoc, R. apply orb_true_r.
    + split; [discriminate |].
      rewrite <- orb_assoc, R, orb_false_r. intros H. apply N in H.
      discriminate.
  - destruct (isnan xout || isnan yout); [congruence | reflexivity].
Qed.

(** At an integral point map_point_new returns the stored pair, with
    status 1 exactly when the pair is undefined. *)
Lemma map_point_new_at_node (par : driz_param_t) (xin yin : double) :
  integral xin = true -> integral yin = true ->
  let c := get_pixmap (pixmap par) (d2i xin) (d2i yin) in
  map_point_new par xin yin =
    (if undefined_pair c then 1 else 0, fst c, snd c).
Proof.
  unfold integral, map_point_new, map_pixel_fwd, get_pixmap, undefined_pair.
  intros -> ->. simpl. destruct (cell _ _ _); reflexivity.
Qed.

(** At an integral point of the valid region map_point returns the status
    of the array access, but the pair it writes is the content of its two
    never-assigned locals. *)
Lemma map_point_at_node (xout0 yout0 : double) (par : driz_param_t)
  (xyin xyout : double * double) :
  integral (fst xyin) = true -> integral (snd xyin) = true ->
  in_region par (d2i (fst xyin)) (d2i (snd xyin)) = true ->
  map_point xout0 yout0 par xyin xyout =
    (fst (map_pixel (pixmap par) (d2i (fst xyin)) (d2i (snd xyin)) xyout),
     (xout0, yout0)).
Proof.
  unfold integral, in_region, map_point. intros -> -> R.
  rewrite !andb_true_iff in R. destruct R as [[[R1 R2] R3] R4].
  rewrite !Z.geb_leb, R1, R2, R3, R4. simpl.
  destruct (map_pixel _ _ _ _); reflexivity.
Qed.

(** C1. The point (3, 2) is an integral point of the valid region of
    [node_par], and the pixel map stores (10, 20) there. map_point_new
    returns that pair; map_point returns status 0 with the contents of its
    uninitialised locals xout and yout, whatever they are. *)
Theorem map_point_node_returns_locals (xout0 yout0 : double)
  (xyout : double * double) :
  integral 3%float = true /\ integral 2%float = true /\
  in_region node_par 3 2 = true /\
  get_pixmap (pixmap node_par) 3 2 = (10%float, 20%float) /\
  map_point_new node_par 3%float 2%float = (0, 10%float, 20%float) /\
  map_point xout0 yout0 node_par (3%float, 2%float) xyout
    = (0, (xout0, yout0)).
Proof.
  repeat split; vm_compute; reflexivity.
Qed.

(** ** Inverse mapper *)

Lemma loop_body_next (par : driz_param_t) (xyout : double * double)
  (b b' : bracket) :
  loop_body par xyout b = Some b' ->
  niter b' = niter b + 1 /\
  b_dx b' = (b_xmax b' - b_xmin b')%float /\
  b_dy b' = (b_ymax b' - b_ymin b')%float.
Proof.
  unfold loop_body.
  repeat match goal with
         | |- context [match eval_inversion ?p ?x ?y ?r with _ => _ end] =>
             destruct (eval_inversion p x y r); [| discriminate]
         end.
  repeat match goal with
         | |- context [if ?c then _ else _] => destruct c
         end; intros [= <-]; simpl; auto.
Qed.

(** With enough fuel the loop never stops for lack of fuel, the body runs
    at most [nmax_iter - niter] times, and on a normal exit the number of
    runs is the increase of niter. *)
Lemma golden_loop_bound (par : driz_param_t) (xyout : double * double) :
  forall (fuel : nat) (b : bracket) (count : nat),
    0 <= niter b ->
    nmax_iter - niter b <= Z.of_nat fuel ->
    let '(e, count') := golden_loop fuel par xyout b count in
    e <> Fuel /\
    (count <= count')%nat /\
    Z.of_nat count' - Z.of_nat count <= Z.max 0 (nmax_iter - niter b) /\
    forall b', e = Done b' ->
      loop_test b' = false /\
      niter b' - niter b = Z.of_nat count' - Z.of_nat count.
Proof.
  induction fuel as [| fuel IH]; intros b count H0 Hf; cbn [golden_loop].
  - destruct (loop_test b) eqn:T.
    + unfold loop_test in T. apply andb_true_iff in T. destruct T as [_ T].
      apply Z.ltb_lt in T. lia.
    + split; [discriminate |]. split; [lia |]. split; [lia |].
      intros b' [= <-]. split; [assumption | lia].
  - destruct (loop_test b) eqn:T.
    + pose proof T as T'. unfold loop_test in T'.
      apply andb_true_iff in T'. destruct T' as [_ T']. apply Z.ltb_lt in T'.
      destruct (loop_body par xyout b) as [b1 |] eqn:B.
      * apply loop_body_next in B. destruct B as [B _].
        specialize (IH b1 (S count)).
        destruct (golden_loop fuel par xyout b1 (S count)) as [e c'].
        destruct IH as (I1 & I2 & I3 & I4); [lia | lia |].
        split; [assumption |]. split; [lia |]. split; [lia |].
        intros b' E. destruct (I4 b' E) as [I5 I6].
        split; [assumption | lia].
      * split; [discriminate |]. split; [lia |]. split; [lia |].
        intros b' [=].
    + split; [discriminate |]. split; [lia |]. split; [lia |].
      intros b' [= <-]. split; [assumption | lia].
Qed.

Lemma bracket_after_niter (par : driz_param_t) (xyout : double * double) :
  forall (n : nat) (b b' : bracket),
    bracket_after n par xyout b = Some b' ->
    niter b' = niter b + Z.of_nat n /\
    (n <> O -> niter b' <= nmax_iter).
Proof.
  induction n as [| n IH]; intros b b'; simpl.
  - intros [= <-]. split; [lia | congruence].
  - destruct (loop_test b) eqn:T; [| discriminate].
    destruct (loop_body par xyout b) as [b1 |] eqn:B; [| discriminate].
    intros H. apply IH in H. apply loop_body_next in B. destruct B as [B _].
    unfold loop_test in T. apply andb_true_iff in T. destruct T as [_ T].
    apply Z.ltb_lt in T. destruct H as [H1 H2]. split; [lia |].
    intros _. destruct n; [lia |]. apply H2. discriminate.
Qed.

(** The loop goes through the brackets [bracket_after] lists. *)
Lemma golden_loop_after (par : driz_param_t) (xyout : double * double) :
  forall (n fuel : nat) (b b' : bracket) (count : nat),
    bracket_after n par xyout b = Some b' ->
    golden_loop (n + fuel) par xyout b count =
    golden_loop fuel par xyout b' (n + count).
Proof.
  induction n as [| n IH]; intros fuel b b' count; simpl.
  - intros [= <-]. reflexivity.
  - destruct (loop_test b); [| discriminate].
    destruct (loop_body par xyout b) as [b1 |]; [| discriminate].
    intros H. rewrite (IH _ _ _ _ H). f_equal. lia.
Qed.

(** C2 (amended). The loop of invert_pixmap runs its body at most 50 times
    and never needs more fuel than that. It stops at the first bracket
    whose extents dx and dy are both no longer above MAX_INV_ERR, where
    after any iteration dx = xmax - xmin and dy = ymax - ymin are the full
    widths of the bracketing rectangle. When the loop ends with
    niter = 50 the function returns 1 and still writes the centre of the
    final rectangle; when it ends earlier it returns 0 with that centre;
    when a sample is undefined it returns 1 and writes nothing. *)
Theorem invert_pixmap_iterations (par : driz_param_t)
  (xyout xyin : double * double) :
  let '(e, count) :=
    golden_loop (Z.to_nat nmax_iter) par xyout (bracket_init par) 0 in
  e <> Fuel /\
  (count <= 50)%nat /\
  (forall b, e = Done b ->
     Z.of_nat count = niter b /\
     loop_test b = false /\
     invert_pixmap par xyout xyin =
       (if niter b =? nmax_iter then 1 else 0, center b) /\
     (niter b <> nmax_iter ->
        (b_dx b >. MAX_INV_ERR) = false /\ (b_dy b >. MAX_INV_ERR) = false)) /\
  (e = Undefined -> invert_pixmap par xyout xyin = (1, xyin)) /\
  (forall n b,
     bracket_after n par xyout (bracket_init par) = Some b ->
     (n <> O ->
        b_dx b = (b_xmax b - b_xmin b)%float /\
        b_dy b = (b_ymax b - b_ymin b)%float) /\
     ((b_dx b >. MAX_INV_ERR) = false ->
      (b_dy b >. MAX_INV_ERR) = false ->
      e = Done b /\ count = n)).
Proof.
  pose proof (golden_loop_bound par xyout (Z.to_nat nmax_iter)
                (bracket_init par) 0) as G.
  unfold invert_pixmap, invert_pixmap_fuel.
  destruct (golden_loop (Z.to_nat nmax_iter) par xyout (bracket_init par) 0)
    as [e count] eqn:L.
  destruct G as (G1 & G2 & G3 & G4); [simpl; lia | simpl; unfold nmax_iter; lia |].
  split; [assumption |].
  split; [simpl in G3; unfold nmax_iter in G3; lia |].
  split; [| split].
  - intros b ->. destruct (G4 b eq_refl) as [T N]. simpl in N.
    split; [lia |]. split; [assumption |]. simpl.
    split; [destruct (niter b =? nmax_iter); reflexivity |].
    intros Hn. unfold loop_test in T. apply andb_false_iff in T.
    destruct T as [T | T].
    + apply orb_false_iff in T. exact T.
    + apply Z.ltb_ge in T. simpl in G3. unfold nmax_iter in *. lia.
  - intros ->. reflexivity.
  - intros n b A. split.
    + intros Hn. destruct n as [| n]; [congruence |]. clear Hn L.
      revert A. generalize (bracket_init par). induction n as [| n IH].
      * intros b0. simpl. destruct (loop_test b0); [| discriminate].
        destruct (loop_body par xyout b0) as [b1 |] eqn:B; [| discriminate].
        intros [= <-]. apply loop_body_next in B. tauto.
      * intros b0 A. cbn [bracket_after] in A.
        destruct (loop_test b0); [| discriminate].
        destruct (loop_body par xyout b0) as [b1 |]; [| discriminate].
        apply (IH b1). exact A.
    + intros Hx Hy.
      assert (Hn : (n <= Z.to_nat nmax_iter)%nat).
      { apply bracket_after_niter in A. destruct A as [A1 A2]. simpl in A1.
        destruct n; [lia |].
        assert (niter b <= nmax_iter) by (apply A2; discriminate). lia. }
      replace (Z.to_nat nmax_iter) with (n + (Z.to_nat nmax_iter - n))%nat in L
        by lia.
      rewrite (golden_loop_after _ _ _ _ _ _ _ A) in L.
      assert (T : loop_test b = false).
      { unfold loop_test. rewrite Hx, Hy. reflexivity. }
      destruct (Z.to_nat nmax_iter - n)%nat; cbn [golden_loop] in L;
        rewrite T in L; injection L as <- <-; split; [reflexivity | lia | reflexivity | lia].
Qed.

(** C2, as stated, fails: inverting the point (3.25, 4.5) through the
    identity map of a 10 x 10 image, the bracket after 11 iterations has
    both half-widths at or below MAX_INV_ERR, yet the loop condition still
    holds there and the loop runs a twelfth time. *)
Lemma invert_pixmap_continues_below_half_width :
  match bracket_after 11 identity_par (3.25%float, 4.5%float)
          (bracket_init identity_par) with
  | Some b => half_widths_within b = true /\ loop_test b = true
  | None => False
  end /\
  snd (golden_loop 50 identity_par (3.25%float, 4.5%float)
         (bracket_init identity_par) 0) = 12%nat.
Proof. vm_compute. repeat split. Qed.

(** ** Arrays and loop counters *)

Lemma upto_length (n : Z) : length (upto n) = Z.to_nat n.
Proof. unfold upto. rewrite length_map, length_seq. reflexivity. Qed.

Lemma upto_succ (n : Z) : 0 <= n -> upto (n + 1) = upto n ++ [n].
Proof.
  intros H. unfold upto.
  replace (Z.to_nat (n + 1)) with (Z.to_nat n + 1)%nat by lia.
  rewrite seq_app, map_app. simpl. rewrite Z2Nat.id by lia. reflexivity.
Qed.

Lemma upto_nonpos (n : Z) : n <= 0 -> upto n = [].
Proof.
  intros H. unfold upto. replace (Z.to_nat n) with O by lia. reflexivity.
Qed.

Lemma In_upto (n k : Z) : In k (upto n) <-> 0 <= k < n.
Proof.
  unfold upto. rewrite in_map_iff. split.
  - intros (m & <- & H). apply in_seq in H. lia.
  - intros H. exists (Z.to_nat k). split; [lia |]. apply in_seq. lia.
Qed.

Lemma wr_nat_length {A} (a : list A) (i : nat) (x : A) :
  length (wr_nat a i x) = length a.
Proof.
  revert i. induction a as [| h t IH]; intros [| i]; simpl; auto.
Qed.

Lemma wr_length {A} (a : list A) (i : Z) (x : A) :
  length (wr a i x) = length a.
Proof. unfold wr. destruct (i <? 0); auto using wr_nat_length. Qed.

Lemma nth_wr_nat (a : list vertex) (i j : nat) (x : vertex) :
  nth j (wr_nat a i x) vertex0 =
    if (i =? j)%nat && (i <? length a)%nat then x else nth j a vertex0.
Proof.
  revert i j. induction a as [| h t IH]; intros i j.
  - simpl. rewrite andb_false_r. destruct i; reflexivity.
  - destruct i as [| i], j as [| j]; simpl; try reflexivity.
    rewrite IH. reflexivity.
Qed.

(** Reading back an array after a write. *)
Lemma rd_wr (a : list vertex) (i j : Z) (x : vertex) :
  0 <= i -> 0 <= j ->
  rd (wr a i x) j =
    if (i =? j) && (i <? Z.of_nat (length a)) then x else rd a j.
Proof.
  intros Hi Hj. unfold rd, wr.
  destruct (Z.ltb_spec i 0); [lia |]. destruct (Z.ltb_spec j 0); [lia |].
  rewrite nth_wr_nat.
  destruct (Z.eqb_spec i j) as [-> | N].
  - rewrite Nat.eqb_refl. simpl.
    destruct (Nat.ltb_spec (Z.to_nat j) (length a));
      destruct (Z.ltb_spec j (Z.of_nat (length a))); try reflexivity; lia.
  - destruct (Nat.eqb_spec (Z.to_nat i) (Z.to_nat j)); [lia | reflexivity].
Qed.

(** ** Polygon engine *)

Lemma mod_small (a b : Z) : 0 <= a + b -> 0 < b -> mod_ a b = (a + b) mod b.
Proof.
  intros Ha Hb. unfold mod_, c_rem. apply Z.rem_mod_nonneg; lia.
Qed.

Lemma orient_ccw_npv (cm0 : vertex) (p : polygon) :
  npv (orient_ccw cm0 p) = npv p.
Proof.
  unfold orient_ccw. destruct (npv p <? 3); [reflexivity |].
  destruct (orient_test cm0 p); reflexivity.
Qed.

(** *** append_vertex *)

Lemma append_vertex_cases (p : polygon) (x : vertex) :
  let '(r, p') := append_vertex p x in
  (p' = p /\
   (r = 0 /\ 0 < npv p /\
      equal_vertices (rd (v p) (npv p - 1)) x VERTEX_ATOL = true
    \/ r = 1)) \/
  (r = 0 /\ npv p < capacity /\
   p' = mkPoly (wr (v p) (npv p) x) (npv p + 1) /\
   (0 < npv p ->
      equal_vertices (rd (v p) (npv p - 1)) x VERTEX_ATOL = false)).
Proof.
  unfold append_vertex, capacity.
  destruct (Z.gtb_spec (npv p) 0) as [P | P]; cbn [andb].
  - destruct (equal_vertices (rd (v p) (npv p - 1)) x VERTEX_ATOL) eqn:L.
    + left. split; [reflexivity |]. left. repeat split. lia.
    + destruct (equal_vertices (rd (v p) 0) x VERTEX_ATOL).
      * left. split; [reflexivity | right; reflexivity].
      * destruct (Z.geb_spec (npv p) (2 * IMAGE_OUTLINE_NPTS)).
        -- left. split; [reflexivity | right; reflexivity].
        -- right. split; [reflexivity |]. split; [lia |].
           split; [reflexivity | intros _; reflexivity].
  - destruct (Z.geb_spec (npv p) (2 * IMAGE_OUTLINE_NPTS)).
    + left. split; [reflexivity | right; reflexivity].
    + right. split; [reflexivity |]. split; [lia |].
      split; [reflexivity | intros; lia].
Qed.

Lemma append_vertex_within (p : polygon) (x : vertex) :
  within_capacity p -> within_capacity (snd (append_vertex p x)).
Proof.
  intros W. pose proof (append_vertex_cases p x) as C.
  destruct (append_vertex p x) as [r p']. simpl.
  destruct C as [[-> _] | (_ & L & -> & _)]; [assumption |].
  unfold within_capacity in *. simpl. lia.
Qed.

Lemma append_or_break_within (s s' : trace) (x : vertex) (b : bool) :
  append_or_break s x = (s', b) ->
  within_capacity (pq s) -> within_capacity (pq s').
Proof.
  unfold append_or_break. intros E W.
  pose proof (append_vertex_within (pq s) x W) as A.
  destruct (append_vertex (pq s) x) as [r p']. injection E as <- _.
  exact A.
Qed.

Lemma trace_step_within (p q : polygon) (k : Z) (s : trace) :
  within_capacity (pq s) -> within_capacity (pq (fst (trace_step p q k s))).
Proof.
  intros W. unfold trace_step. cbv zeta.
  repeat match goal with
         | |- context [append_or_break ?s ?x] =>
             let E := fresh "E" in
             destruct (append_or_break s x) as [? ?] eqn:E;
             apply append_or_break_within in E; [| exact W || assumption]
         | |- context [if ?c then _ else _] => destruct c
         end;
    simpl; assumption.
Qed.

(** The edge cursors: each advance reduces the counter modulo a positive
    vertex count, so a cursor into p->v stays below the larger of the two
    counts (the last advance branch reduces ip modulo q->npv) and a cursor
    into q->v stays below q->npv. *)
Lemma mod_range (a n : Z) : 0 <= a -> 0 < n -> 0 <= mod_ a n < n.
Proof.
  intros Ha Hn. rewrite mod_small by lia. apply Z.mod_pos_bound. exact Hn.
Qed.

Lemma append_or_break_state (s : trace) (x : vertex) :
  fst (append_or_break s x) = set_pq s (snd (append_vertex (pq s) x)).
Proof.
  unfold append_or_break. destruct (append_vertex (pq s) x); reflexivity.
Qed.

Lemma trace_step_cursors (p q : polygon) (k : Z) (s : trace) :
  0 < npv p -> 0 < npv q ->
  cursors_below (Z.max (npv p) (npv q)) (npv q) s ->
  cursors_below (Z.max (npv p) (npv q)) (npv q) (fst (trace_step p q k s)).
Proof.
  intros Hp Hq (I1 & I2 & I3 & I4 & I5 & I6).
  pose proof (mod_range (ip s + 1) (npv p) ltac:(lia) Hp) as Mp.
  pose proof (mod_range (ip s + 1) (npv q) ltac:(lia) Hq) as Mpq.
  pose proof (mod_range (iq s + 1) (npv q) ltac:(lia) Hq) as Mq.
  unfold trace_step. cbv zeta.
  repeat match goal with
         | |- context [append_or_break ?s ?x] =>
             let E := fresh "E" in
             pose proof (append_or_break_state s x) as E;
             destruct (append_or_break s x) as [? ?];
             cbn [fst] in E; subst
         | |- context [if ?c then _ else _] => destruct c
         end;
    unfold cursors_below; cbn; lia.
Qed.

(** With equally many vertices in p and q every cursor stays within the
    vertices in use. *)
Lemma trace_step_cursors_equal_counts (p q : polygon) (k : Z) (s : trace) :
  0 < npv p -> npv q = npv p ->
  cursors_below (npv p) (npv q) s ->
  cursors_below (npv p) (npv q) (fst (trace_step p q k s)).
Proof.
  intros Hp E C.
  pose proof (trace_step_cursors p q k s Hp ltac:(lia)) as T.
  rewrite E, Z.max_id in *. exact (T C).
Qed.

Lemma trace_loop_bounds (p q : polygon) :
  forall (ks : list Z) (s : trace) (count : nat) (log : list trace),
    within_capacity (pq s) ->
    let '(s', count', _) := trace_loop p q ks s count log in
    within_capacity (pq s') /\
    (count <= count' <= count + length ks)%nat.
Proof.
  induction ks as [| k ks IH]; intros s count log W; cbn [trace_loop].
  - split; [assumption | simpl; lia].
  - pose proof (trace_step_within p q k s W) as W'.
    destruct (trace_step p q k s) as [s1 brk]. simpl in W'.
    destruct brk.
    + split; [assumption | simpl; lia].
    + specialize (IH s1 (S count) (s1 :: log) W').
      destruct (trace_loop p q ks s1 (S count) (s1 :: log)) as [[s' c'] l'].
      destruct IH as [I1 I2]. split; [assumption | simpl; lia].
Qed.

(** *** simplify_polygon *)

Lemma simplify_fold_length (p : polygon) :
  forall (ks : list Z) (s : simplify_state),
    (length (hull (fold_left (fun s k => simplify_step p k s) ks s))
     <= length (hull s) + length ks)%nat.
Proof.
  induction ks as [| k ks IH]; intros s; simpl; [lia |].
  etransitivity; [apply IH |].
  unfold simplify_step. cbv zeta. cbn [hull].
  destruct (_ && _); [rewrite length_app; simpl; lia | lia].
Qed.

Lemma simplify_polygon_npv (p : polygon) :
  0 <= npv p -> 0 <= npv (simplify_polygon p) <= npv p.
Proof.
  intros H. unfold simplify_polygon.
  destruct (npv p <? 3); [lia |]. cbn [npv]. unfold simplify_hull.
  pose proof (simplify_fold_length p (upto (npv p)) (mkSimp (npv p - 1) 0 1 []))
    as L.
  rewrite upto_length in L. simpl in L. lia.
Qed.

(** The loop of simplify_polygon keeps, in order, the vertices that pass
    the test [kept]. *)
Lemma simplify_fold_kept (p : polygon) :
  3 <= npv p ->
  forall m : nat,
    Z.of_nat m <= npv p ->
    let s := fold_left (fun s k => simplify_step p k s) (upto (Z.of_nat m))
                       (mkSimp (npv p - 1) 0 1 []) in
    hull s = map (rd (v p)) (filter (kept p) (upto (Z.of_nat m))) /\
    ipv_ s = (Z.of_nat m - 1) mod npv p /\
    ipv s = Z.of_nat m mod npv p /\
    ipvnxt s = (Z.of_nat m + 1) mod npv p.
Proof.
  intros Hn. induction m as [| m IH]; intros Hm.
  - cbn [Z.of_nat]. rewrite upto_nonpos by lia.
    cbn [fold_left filter map hull ipv_ ipv ipvnxt].
    split; [reflexivity |]. split; [| split].
    + replace (0 - 1) with (npv p - 1 + (-1) * npv p) by lia.
      rewrite Z.mod_add by lia. rewrite Z.mod_small; lia.
    + rewrite Z.mod_small; lia.
    + rewrite Z.mod_small; lia.
  - replace (Z.of_nat (S m)) with (Z.of_nat m + 1) by lia.
    rewrite upto_succ by lia.
    rewrite fold_left_app, filter_app, map_app. cbn [fold_left].
    destruct IH as (I1 & I2 & I3 & I4); [lia |].
    set (s := fold_left _ (upto (Z.of_nat m)) _) in *.
    unfold simplify_step. cbv zeta. cbn [hull ipv_ ipv ipvnxt].
    assert (I3' : ipv s = Z.of_nat m) by (rewrite I3; apply Z.mod_small; lia).
    split; [| split; [| split]].
    + rewrite I1, I2, I3', I4. cbn [filter].
      match goal with
      | |- (if ?c then _ else _) = _ => change c with (kept p (Z.of_nat m))
      end.
      destruct (kept p (Z.of_nat m)); cbn [map]; [reflexivity |].
      rewrite app_nil_r. reflexivity.
    + rewrite I3. f_equal. lia.
    + exact I4.
    + rewrite mod_small by lia.
      replace (2 + Z.of_nat m + npv p) with (Z.of_nat m + 1 + 1 + 1 * npv p)
        by lia.
      apply Z.mod_add. lia.
Qed.

(** *** orient_ccw *)

(** After the first [m] swaps the first and the last [m] of the [n]
    vertices in use are mirrored and everything else is in place. *)
Lemma swap_fold (n : Z) (a : list vertex) :
  0 <= n <= Z.of_nat (length a) ->
  forall m : nat,
    2 * Z.of_nat m <= n ->
    let a' := fold_left (swap_step n) (upto (Z.of_nat m)) a in
    length a' = length a /\
    forall i, 0 <= i ->
      rd a' i = if (i <? Z.of_nat m) || ((n - 1 - Z.of_nat m <? i) && (i <? n))
                then rd a (n - 1 - i) else rd a i.
Proof.
  intros Hn. induction m as [| m IH]; intros Hm.
  - cbn [Z.of_nat]. rewrite upto_nonpos by lia. cbn [fold_left].
    split; [reflexivity |]. intros i Hi.
    destruct (Z.ltb_spec i 0); [lia |]. cbn [orb].
    destruct (Z.ltb_spec (n - 1 - 0) i); [| reflexivity].
    destruct (Z.ltb_spec i n); [lia | reflexivity].
  - replace (Z.of_nat (S m)) with (Z.of_nat m + 1) in * by lia.
    rewrite upto_succ by lia. rewrite fold_left_app. cbn [fold_left].
    destruct IH as [L R]; [lia |].
    set (a' := fold_left (swap_step n) (upto (Z.of_nat m)) a) in *.
    unfold swap_step. cbv zeta. split.
    + rewrite !wr_length. exact L.
    + intros i Hi.
      rewrite rd_wr by lia. rewrite wr_length, L.
      rewrite rd_wr by lia. rewrite L.
      rewrite (R (Z.of_nat m)) by lia.
      rewrite (R (n - 1 - Z.of_nat m)) by lia.
      rewrite (R i) by lia.
      repeat match goal with
             | |- context [Z.ltb ?x ?y] => destruct (Z.ltb_spec x y)
             | |- context [Z.eqb ?x ?y] => destruct (Z.eqb_spec x y)
             end; cbn [andb orb]; try lia; try reflexivity;
        try (f_equal; lia); subst; try (f_equal; lia).
Qed.

(** orient_ccw leaves the polygon alone when its test succeeds and mirrors
    the vertices in use otherwise. *)
Lemma orient_ccw_effect (cm0 : vertex) (p : polygon) :
  3 <= npv p <= Z.of_nat (length (v p)) ->
  (orient_test cm0 p = true -> orient_ccw cm0 p = p) /\
  (orient_test cm0 p = false ->
     npv (orient_ccw cm0 p) = npv p /\
     length (v (orient_ccw cm0 p)) = length (v p) /\
     forall i, 0 <= i ->
       rd (v (orient_ccw cm0 p)) i =
         if i <? npv p then rd (v p) (npv p - 1 - i) else rd (v p) i).
Proof.
  intros Hn. unfold orient_ccw.
  destruct (Z.ltb_spec (npv p) 3); [lia |].
  split; intros ->; [reflexivity |]. cbn [npv v].
  split; [reflexivity |].
  assert (Q : c_div (npv p) 2 = npv p / 2).
  { unfold c_div. apply Z.quot_div_nonneg; lia. }
  pose proof (Z.div_mod (npv p) 2 ltac:(lia)) as D.
  pose proof (Z.mod_pos_bound (npv p) 2 ltac:(lia)) as B.
  destruct (swap_fold (npv p) (v p) ltac:(lia) (Z.to_nat (npv p / 2)))
    as [L R].
  { rewrite Z2Nat.id; [lia | apply Z.div_pos; lia]. }
  rewrite Z2Nat.id in * by (apply Z.div_pos; lia). rewrite Q.
  split; [exact L |]. intros i Hi. rewrite (R i Hi).
  repeat match goal with
         | |- context [Z.ltb ?x ?y] => destruct (Z.ltb_spec x y)
         end; cbn [andb orb]; try lia; try reflexivity.
  f_equal. lia.
Qed.

(** simplify_polygon leaves in the array, in order, exactly the vertices
    that pass [kept]. *)
Lemma simplify_polygon_kept (p : polygon) :
  3 <= npv p ->
  let r := simplify_polygon p in
  firstn (Z.to_nat (npv r)) (v r) =
    map (rd (v p)) (filter (kept p) (upto (npv p))).
Proof.
  intros Hn. unfold simplify_polygon.
  destruct (Z.ltb_spec (npv p) 3); [lia |]. cbn [npv v].
  rewrite Nat2Z.id, firstn_app, Nat.sub_diag, firstn_O, app_nil_r, firstn_all.
  unfold simplify_hull.
  destruct (simplify_fold_kept p Hn (Z.to_nat (npv p))) as [E _]; [lia |].
  rewrite Z2Nat.id in E by lia. exact E.
Qed.

(** What the two steps of the normalisation do to the vertices: on a
    polygon with at least three vertices orient_ccw changes nothing when
    the cross product of the first two vertices, taken relative to the
    centre accumulated in cm, is not negative, and otherwise puts the
    vertices in use in the reverse order; the removal step then keeps, in
    that order, exactly the vertices whose two neighbours are farther
    apart than VERTEX_ATOL and span with it a cross product above
    APPROX_ZERO in magnitude. *)
Theorem normalize_effect (cm0 : vertex) (p : polygon) :
  3 <= npv p <= Z.of_nat (length (v p)) ->
  let o := orient_ccw cm0 p in
  let r := normalize cm0 p in
  npv o = npv p /\
  (orient_test cm0 p = true -> o = p) /\
  (orient_test cm0 p = false ->
     forall i, 0 <= i ->
       rd (v o) i = if i <? npv p then rd (v p) (npv p - 1 - i)
                    else rd (v p) i) /\
  firstn (Z.to_nat (npv r)) (v r) =
    map (rd (v o)) (filter (kept o) (upto (npv o))) /\
  0 <= npv r <= npv p.
Proof.
  intros Hn. cbv zeta.
  pose proof (orient_ccw_npv cm0 p) as N.
  destruct (orient_ccw_effect cm0 p Hn) as [T F].
  split; [exact N |]. split; [exact T |].
  split; [intros H; apply (F H) |].
  unfold normalize. split.
  - apply simplify_polygon_kept. lia.
  - rewrite <- N. apply simplify_polygon_npv. lia.
Qed.

Lemma normalize_effect_witness :
  3 <= npv dart <= Z.of_nat (length (v dart)) /\
  npv (orient_ccw vertex0 dart) = npv dart.
Proof.
  assert (H : 3 <= npv dart <= Z.of_nat (length (v dart)))
    by (vm_compute; split; discriminate).
  split; [exact H |].
  exact (proj1 (normalize_effect vertex0 dart H)).
Defined.

(** The test on the first two vertices does not give the orientation of
    a polygon that is not convex: [dart] has four vertices and a positive
    signed area; with cm starting from zero orient_ccw reverses it,
    nothing is removed, and the signed area of the result is negative. *)
Lemma normalize_dart_clockwise :
  npv dart = 4 /\
  signed_area_sum dart = 20%float /\
  npv (normalize vertex0 dart) = 4 /\
  signed_area_sum (normalize vertex0 dart) = (-20)%float /\
  (signed_area_sum (normalize vertex0 dart) >=. 0%float) = false.
Proof. vm_compute. repeat split. Qed.

(** C5. The square [low_square] is convex, has four vertices listed
    counter-clockwise and the signed area 18. When the local cm of
    orient_ccw, which is never initialised, happens to start from zero the
    normalisation leaves the square as it is; when it starts from
    (0, -10) the orientation test fails, the vertices are reversed, none
    is removed, and the signed area of the result is -18. *)
Theorem normalize_square_clockwise :
  npv low_square = 4 /\
  signed_area_sum low_square = 18%float /\
  is_poly_contained low_square low_square = 1 /\
  signed_area_sum (normalize vertex0 low_square) = 18%float /\
  orient_test (V 0%float (-10)%float) low_square = false /\
  npv (normalize (V 0%float (-10)%float) low_square) = 4 /\
  signed_area_sum (normalize (V 0%float (-10)%float) low_square)
    = (-18)%float /\
  (signed_area_sum (normalize (V 0%float (-10)%float) low_square)
     >=. 0%float) = false.
Proof. vm_compute. repeat split. Qed.

(** *** intersect_convex_polygons *)

Lemma intersect_within_capacity (l : locals) (p q pq0 : polygon) :
  within_capacity p -> within_capacity q ->
  fst (intersect_convex_polygons l p q pq0) = 0 ->
  within_capacity (snd (intersect_convex_polygons l p q pq0)).
Proof.
  intros Wp Wq. unfold intersect_convex_polygons.
  destruct ((npv p <? 3) || (npv q <? 3)); [discriminate |].
  assert (S : forall cm x, within_capacity x ->
                within_capacity (simplify_polygon (orient_ccw cm x))).
  { intros cm x [X1 X2].
    pose proof (simplify_polygon_npv (orient_ccw cm x)) as B.
    rewrite orient_ccw_npv in B. unfold within_capacity. lia. }
  destruct (negb (is_poly_contained _ _ =? 0)); [intros _; apply S, Wp |].
  destruct (negb (is_poly_contained _ _ =? 0)); [intros _; apply S, Wq |].
  unfold trace_run.
  pose proof (trace_loop_bounds (orient_ccw (cm_p l) p) (orient_ccw (cm_q l) q)
                (trace_range (orient_ccw (cm_p l) p) (orient_ccw (cm_q l) q))
                (trace_init (orient_ccw (cm_p l) p) (orient_ccw (cm_q l) q)
                            pq0 (fi0 l)) 0 []) as B.
  destruct (trace_loop _ _ _ _ _ _) as [[s c] lg].
  destruct B as [[B1 B2] _].
  { unfold trace_init, within_capacity, capacity, IMAGE_OUTLINE_NPTS.
    cbn [pq npv]. lia. }
  intros _. cbn [snd].
  pose proof (simplify_polygon_npv (pq s) B1). unfold within_capacity. lia.
Qed.

(** C9 (amended). append_vertex never grows a polygon whose vertex count
    has reached the capacity of 16: there it leaves the polygon as it is
    and returns 1, or 0 when the vertex equals the last one within
    VERTEX_ATOL. When it does store a vertex, the count was below the
    capacity, the vertex goes to the first free entry of the array, and it
    differs from the last vertex by VERTEX_ATOL or more in a coordinate.
    Hence every polygon intersect_convex_polygons returns with code 0 for
    inputs within the capacity is within the capacity. *)
Theorem polygon_capacity (l : locals) (p q pq0 : polygon) (x : vertex) :
  capacity = 16 /\
  (let '(r, p') := append_vertex p x in
   (capacity <= npv p ->
      p' = p /\
      (r = 1 \/
       r = 0 /\ equal_vertices (rd (v p) (npv p - 1)) x VERTEX_ATOL = true)) /\
   (p' = p \/
    r = 0 /\ npv p < capacity /\
    p' = mkPoly (wr (v p) (npv p) x) (npv p + 1) /\
    (0 < npv p ->
       equal_vertices (rd (v p) (npv p - 1)) x VERTEX_ATOL = false)) /\
   length (v p') = length (v p)) /\
  (within_capacity p -> within_capacity q ->
   fst (intersect_convex_polygons l p q pq0) = 0 ->
   within_capacity (snd (intersect_convex_polygons l p q pq0))).
Proof.
  split; [reflexivity |]. split; [| apply intersect_within_capacity].
  pose proof (append_vertex_cases p x) as C.
  destruct (append_vertex p x) as [r p'].
  destruct C as [[-> C] | (R & L & -> & N)].
  - split; [| split; [left; reflexivity | reflexivity]].
    intros _. split; [reflexivity |]. tauto.
  - split; [intros; lia |]. split; [| cbn [v]; apply wr_length].
    right. auto.
Qed.

(** C9, as stated, fails: [full_polygon] has 16 vertices, the capacity,
    and appending a copy of its last vertex returns 0, not 1. *)
Lemma append_vertex_full_returns_success :
  npv full_polygon = capacity /\
  append_vertex full_polygon (V 15%float 225%float) = (0, full_polygon).
Proof. vm_compute. split; reflexivity. Qed.

(** C3 (amended). The edge-tracing loop of intersect_convex_polygons runs
    its body at most 2 * (|p| + |q|) + 1 times: its counter k takes the
    values 0, ..., 2 * (|p| + |q|). *)
Theorem intersect_iterations_bound (l : locals) (p q pq0 : polygon) :
  Z.of_nat (intersect_iterations l p q pq0)
  <= Z.max 0 (2 * (npv p + npv q) + 1).
Proof.
  unfold intersect_iterations.
  destruct ((npv p <? 3) || (npv q <? 3)); [simpl; lia |].
  destruct (negb (is_poly_contained _ _ =? 0)); [simpl; lia |].
  destruct (negb (is_poly_contained _ _ =? 0)); [simpl; lia |].
  unfold trace_run.
  pose proof (trace_loop_bounds (orient_ccw (cm_p l) p) (orient_ccw (cm_q l) q)
                (trace_range (orient_ccw (cm_p l) p) (orient_ccw (cm_q l) q))
                (trace_init (orient_ccw (cm_p l) p) (orient_ccw (cm_q l) q)
                            pq0 (fi0 l)) 0 []) as B.
  destruct (trace_loop _ _ _ _ _ _) as [[s c] lg].
  destruct B as [_ B].
  { unfold trace_init, within_capacity, capacity, IMAGE_OUTLINE_NPTS.
    cbn [pq npv]. lia. }
  cbn [fst snd]. unfold trace_range in B.
  rewrite upto_length, !orient_ccw_npv in B. lia.
Qed.

(** C3, as stated, fails: for two disjoint triangles the loop runs 13
    times, one more than 2 * (3 + 3). *)
Lemma intersect_iterations_disjoint_triangles :
  npv low_triangle = 3 /\ npv high_triangle = 3 /\
  intersect_iterations zero_locals low_triangle high_triangle blank_polygon
    = 13%nat.
Proof. vm_compute. repeat split. Qed.

(** C10. For the triangle [corner_triangle] and the square [unit4_square]
    neither polygon contains the other, so the edge-tracing loop runs; at
    the end of its fifth iteration the cursor pv is at offset 3 of p->v,
    past the three vertices of the triangle, because the last advance
    branch reduces ip modulo q->npv = 4. The call returns a polygon of 9
    vertices, although the common region is a quadrilateral. *)
Theorem intersect_cursor_leaves_polygon :
  let p := orient_ccw vertex0 corner_triangle in
  let q := orient_ccw vertex0 unit4_square in
  npv p = 3 /\ npv q = 4 /\
  is_poly_contained p q = 0 /\ is_poly_contained q p = 0 /\
  (let '(_, _, log) := trace_run p q blank_polygon vertex0 in
   forallb (cursors_in_range p q) log = false /\
   option_map (fun s => (ip s, t_ipv s)) (nth_error (rev log) 4)
     = Some (3, 3)) /\
  mod_ 3 (npv p) = 0 /\ mod_ 3 (npv q) = 3 /\
  npv (snd (intersect_convex_polygons zero_locals corner_triangle
              unit4_square blank_polygon)) = 9.
Proof. vm_compute. repeat split. Qed.

(** ** Scanline scanner *)

Lemma limits_code (s : scanner) (xlb xlt xrb xrt : double) (x12 : Z * Z) :
  fst (limits s xlb xlt xrb xrt x12) = 0 \/
  fst (limits s xlb xlt xrb xrt x12) = 3.
Proof.
  unfold limits. cbv zeta.
  repeat match goal with
         | |- context [if ?c then _ else _] => destruct c
         end; cbn [fst]; auto.
Qed.

(** The return codes of get_scanline_limits and what each of them leaves
    in the scanner. *)
Lemma get_scanline_limits_codes (s : scanner) (y : Z) (x12 : Z * Z) :
  forall code s' x12',
    get_scanline_limits s y x12 = Some (code, s', x12') ->
    (code = 2 /\ s' = s /\ x12' = x12 /\
       outside_clip s y || outside_span s y = true) \/
    (code = 1 /\ ended s' /\ x12' = x12 /\
       outside_clip s y || outside_span s y = false) \/
    ((code = 0 \/ code = 3) /\ ~ ended s /\
       outside_clip s y || outside_span s y = false).
Proof.
  intros code s' x12'. unfold get_scanline_limits, outside_clip, outside_span.
  cbv zeta.
  destruct ((s_ymax s >=? s_ymin s) && ((y <? 0) || (y >? s_ymax s)));
    [intros [= <- <- <-]; left; auto |].
  destruct (((i2d y + 0.5)%float <=. min_y s)
            || ((i2d y - 0.5)%float >=. (max_y s + i2d 1)%float));
    [intros [= <- <- <-]; left; auto |].
  cbn [orb].
  destruct (left s) as [l |] eqn:L, (right s) as [r |] eqn:R;
    try (intros [= <- <- <-]; right; left; unfold ended; auto; fail).
  repeat match goal with
         | |- context [match skip_edges ?t ?e ?i ?m with _ => _ end] =>
             destruct (skip_edges t e i m);
             try discriminate;
             try (intros [= <- <- <-]; right; left; unfold ended, clear;
                  cbn [left right]; auto; fail)
         end.
  match goal with
  | |- context [limits ?a ?b ?c ?d ?e ?f] =>
      pose proof (limits_code a b c d e f) as C;
      destruct (limits a b c d e f) as [c0 x0]
  end.
  intros [= <- <- <-]. right. right. cbn [fst] in C.
  split; [exact C |]. split; [| reflexivity].
  unfold ended. rewrite L, R. intros [? | ?]; discriminate.
Qed.

(** C6 (amended). get_scanline_limits returns 2, changing nothing, exactly
    when the clip rows are configured (ymax >= ymin) and y < 0 or
    y > ymax, or when y + 0.5 <= min_y or y - 0.5 >= max_y + 1. *)
Theorem get_scanline_limits_out_of_bounds (s : scanner) (y : Z)
  (x12 : Z * Z) :
  (outside_clip s y || outside_span s y = true ->
   get_scanline_limits s y x12 = Some (2, s, x12)) /\
  (forall s' x12',
     get_scanline_limits s y x12 = Some (2, s', x12') ->
     outside_clip s y || outside_span s y = true).
Proof.
  split.
  - unfold get_scanline_limits, outside_clip, outside_span. cbv zeta.
    destruct ((s_ymax s >=? s_ymin s) && ((y <? 0) || (y >? s_ymax s)));
      [reflexivity |].
    cbn [orb]. intros ->. reflexivity.
  - intros s' x12' H. apply get_scanline_limits_codes in H.
    destruct H as [(_ & _ & _ & H) | [(C & _) | ([C | C] & _)]];
      [exact H | discriminate ..].
Qed.

(** C6, as stated, fails: the scanner [clip_scanner] records the clip rows
    5..9, and the row y = 2, below the configured ymin, gets the interval
    [0, 9] with return code 0. *)
Lemma get_scanline_limits_below_ymin :
  s_ymin clip_scanner = 5 /\ s_ymax clip_scanner = 9 /\
  option_map (fun r => (fst (fst r), snd r))
             (get_scanline_limits clip_scanner 2 (0, 0))
    = Some (0, (0, 9)).
Proof. vm_compute. repeat split. Qed.

Lemma ended_stays (s : scanner) (y : Z) (x12 : Z * Z) :
  ended s ->
  exists code,
    get_scanline_limits s y x12 = Some (code, s, x12) /\
    (code = 1 \/ code = 2).
Proof.
  intros E. unfold get_scanline_limits. cbv zeta.
  destruct (_ && _); [exists 2; auto |].
  destruct (_ || _); [exists 2; auto |].
  destruct E as [-> | E].
  - exists 1. auto.
  - rewrite E. destruct (left s); exists 1; auto.
Qed.

(** C4 (amended). Once a call of get_scanline_limits has returned 1, every
    later call on that scanner, for any rows, returns 1 or 2, never an
    interval, and leaves the scanner as it is. *)
Theorem scan_ended_stays_ended (s s' : scanner) (y : Z) (x12 x12' : Z * Z) :
  get_scanline_limits s y x12 = Some (1, s', x12') ->
  forall ys : list Z,
    exists codes,
      scan_rows s' ys x12' = Some codes /\
      Forall (fun c => c = 1 \/ c = 2) codes /\
      scan_states s' ys x12' = Some (map (fun c => (c, s')) codes).
Proof.
  intros H. apply get_scanline_limits_codes in H.
  destruct H as [(C & _) | [(_ & E & _) | ([C | C] & _)]]; try discriminate.
  induction ys as [| y0 ys IH].
  - exists []. split; [reflexivity |]. split; [constructor | reflexivity].
  - destruct (ended_stays s' y0 x12' E) as (c & G & Hc).
    destruct IH as (cs & S & F & T).
    exists (c :: cs). cbn [scan_rows scan_states map]. rewrite G, S, T.
    split; [reflexivity |]. split; [constructor; assumption | reflexivity].
Qed.

Lemma scan_ended_stays_ended_witness :
  exists codes,
    scan_rows (clear low_scanner) [4; 5; 6] (0, 0) = Some codes /\
    Forall (fun c => c = 1 \/ c = 2) codes /\
    scan_states (clear low_scanner) [4; 5; 6] (0, 0)
      = Some (map (fun c => (c, clear low_scanner)) codes).
Proof.
  apply (scan_ended_stays_ended low_scanner (clear low_scanner) 4 (0, 0) (0, 0)).
  vm_compute. reflexivity.
Defined.

(** C4, as stated, fails: on [low_scanner] the row 4 ends the scan (code
    1), and the next call, for row 5, returns 2. *)
Lemma scan_ended_then_out_of_bounds :
  scan_rows low_scanner [4; 5] (0, 0) = Some [1; 2].
Proof. vm_compute. reflexivity. Qed.

(** ** Overlap orchestrator *)

Lemma MAX_max (a b : Z) : MAX a b = Z.max a b.
Proof. unfold MAX. destruct (Z.gtb_spec a b); lia. Qed.

Lemma MIN_min (a b : Z) : MIN a b = Z.min a b.
Proof. unfold MIN. destruct (Z.ltb_spec a b); lia. Qed.

(** Before the label _setup_scanner only the flag overlap_valid of the
    scanner is written. *)
Lemma overlap_polygon_scanner (fr : frame) (par : driz_param_t) (s : scanner) :
  exists flag, snd (overlap_polygon fr par s) = set_overlap_valid s flag.
Proof.
  unfold overlap_polygon.
  destruct (map_corners _ _ _ _); [| exists 0; reflexivity].
  destruct (intersect_convex_polygons _ _ _ _) as [r pq].
  destruct (negb (r =? 0)); [exists 0; reflexivity |].
  destruct (map_back _ _ _ _ _) as [a ok].
  destruct ok; [exists 1 | exists 0]; reflexivity.
Qed.

(** What init_scanner records about the rows. *)
Lemma init_scanner_rows (p : polygon) (s : scanner) (par : driz_param_t) :
  let '(n, s') := init_scanner p s par in
  (3 <= npv p ->
     n = 0 /\ s_ymax s' = ymax par /\ s_ymin s' = ymin par /\
     min_y s' = snd (find_min p) /\ max_y s' = snd (find_max p)) /\
  (npv p < 3 ->
     n = 1 /\ s_ymax s' = s_ymax s /\ min_y s' = min_y s /\
     max_y s' = max_y s).
Proof.
  unfold init_scanner.
  destruct (Z.ltb_spec (npv p) 3) as [H | H].
  - cbv beta iota. split; [lia |]. intros _. cbn. auto.
  - cbv zeta.
    destruct (find_min p) as [min_left min_y].
    destruct (find_max p) as [max_right max_y].
    repeat match goal with
           | |- context [if ?c then _ else _] => destruct c
           end; (split; [intros _; cbn; auto | lia]).
Qed.

(** *** The order of doubles *)

Lemma SFcompare_lt_trans (a b c : SpecFloat.spec_float) :
  SpecFloat.SFcompare a b = Some Lt -> SpecFloat.SFcompare b c = Some Lt ->
  SpecFloat.SFcompare a c = Some Lt.
Proof.
  destruct a as [sa | sa | | sa ma ea], b as [sb | sb | | sb mb eb],
    c as [sc | sc | | sc mc ec]; cbn;
    try discriminate; try reflexivity;
    try (destruct sa; discriminate); try (destruct sb; discriminate);
    try (destruct sc; discriminate);
    try (destruct sa, sb; discriminate);
    try (destruct sb, sc; discriminate);
    try (destruct sa, sb, sc; (discriminate || reflexivity)).
  all: destruct sa, sb, sc; try discriminate; try reflexivity.
  all: change (Pos.compare_cont Eq) with Pos.compare.
  all: destruct (Z.compare_spec ea eb), (Z.compare_spec eb ec),
         (Z.compare_spec ea ec); try discriminate; try reflexivity; try lia;
       subst; cbn;
       repeat match goal with
              | |- context [Pos.compare ?x ?y] =>
                  destruct (Pos.compare_spec x y)
              end; cbn; try discriminate; try reflexivity; lia.
Qed.

Lemma dlt_trans (a b c : double) :
  (a <. b) = true -> (b <. c) = true -> (a <. c) = true.
Proof.
  unfold dlt. rewrite !FloatAxioms.ltb_spec. unfold SpecFloat.SFltb.
  destruct (SpecFloat.SFcompare (Prim2SF a) (Prim2SF b)) as [[| |] |] eqn:E1;
    try discriminate.
  destruct (SpecFloat.SFcompare (Prim2SF b) (Prim2SF c)) as [[| |] |] eqn:E2;
    try discriminate.
  rewrite (SFcompare_lt_trans _ _ _ E1 E2). reflexivity.
Qed.

Lemma dlt_irrefl (a : double) : (a <. a) = false.
Proof.
  unfold dlt. rewrite FloatAxioms.ltb_spec. unfold SpecFloat.SFltb.
  destruct (Prim2SF a) as [s | s | | s m e]; cbn; try reflexivity.
  - destruct s; reflexivity.
  - destruct s; rewrite Z.compare_refl, Pos.compare_cont_refl; reflexivity.
Qed.

(** A value that is not below the old minimum is not below a new, smaller
    one. *)
Lemma not_below_smaller (y m m' : double) :
  (y <. m) = false -> (m' <. m) = true -> (y <. m') = false.
Proof.
  intros H1 H2. destruct (y <. m') eqn:E; [| reflexivity].
  rewrite (dlt_trans _ _ _ E H2) in H1. discriminate.
Qed.

Lemma not_above_larger (y m m' : double) :
  (y >. m) = false -> (m' >. m) = true -> (y >. m') = false.
Proof.
  unfold dgt. intros H1 H2. destruct (PrimFloat.ltb m' y) eqn:E; [| reflexivity].
  pose proof (dlt_trans m m' y H2 E) as T. unfold dlt in T. congruence.
Qed.

(** *** The lowest and the highest vertex *)

Lemma find_min_fold (p : polygon) :
  forall (ks : list Z) (i : Z) (m : double),
    m = vy (rd (v p) i) ->
    let r := fold_left
               (fun '(min_left, min_y) k =>
                  if vy (rd (v p) k) <. min_y then (k, vy (rd (v p) k))
                  else (min_left, min_y)) ks (i, m) in
    snd r = vy (rd (v p) (fst r)) /\
    (fst r = i \/ In (fst r) ks) /\
    (forall y, (y <. m) = false -> (y <. snd r) = false) /\
    (forall k, In k ks -> (vy (rd (v p) k) <. snd r) = false).
Proof.
  induction ks as [| k0 ks IH]; intros i m Hm; cbn [fold_left].
  - cbn. repeat split; auto. contradiction.
  - destruct (vy (rd (v p) k0) <. m) eqn:C.
    + destruct (IH k0 (vy (rd (v p) k0)) eq_refl) as (I1 & I2 & I3 & I4).
      split; [exact I1 |]. split; [right; destruct I2 as [-> | I2]; [left | right]; auto |].
      split.
      * intros y Hy. apply I3. apply (not_below_smaller y m); assumption.
      * intros k [<- | Hk]; [apply I3, dlt_irrefl | apply I4, Hk].
    + destruct (IH i m Hm) as (I1 & I2 & I3 & I4).
      split; [exact I1 |]. split; [destruct I2; [left | right; right]; assumption |].
      split; [exact I3 |].
      intros k [<- | Hk]; [apply I3, C | apply I4, Hk].
Qed.

Lemma find_max_fold (p : polygon) :
  forall (ks : list Z) (i : Z) (m : double),
    m = vy (rd (v p) i) ->
    let r := fold_left
               (fun '(max_right, max_y) k =>
                  if vy (rd (v p) k) >. max_y then (k, vy (rd (v p) k))
                  else (max_right, max_y)) ks (i, m) in
    snd r = vy (rd (v p) (fst r)) /\
    (fst r = i \/ In (fst r) ks) /\
    (forall y, (y >. m) = false -> (y >. snd r) = false) /\
    (forall k, In k ks -> (vy (rd (v p) k) >. snd r) = false).
Proof.
  induction ks as [| k0 ks IH]; intros i m Hm; cbn [fold_left].
  - cbn. repeat split; auto. contradiction.
  - destruct (vy (rd (v p) k0) >. m) eqn:C.
    + destruct (IH k0 (vy (rd (v p) k0)) eq_refl) as (I1 & I2 & I3 & I4).
      split; [exact I1 |]. split; [right; destruct I2 as [-> | I2]; [left | right]; auto |].
      split.
      * intros y Hy. apply I3. apply (not_above_larger y m); assumption.
      * intros k [<- | Hk]; [apply I3; unfold dgt; apply dlt_irrefl | apply I4, Hk].
    + destruct (IH i m Hm) as (I1 & I2 & I3 & I4).
      split; [exact I1 |]. split; [destruct I2; [left | right; right]; assumption |].
      split; [exact I3 |].
      intros k [<- | Hk]; [apply I3, C | apply I4, Hk].
Qed.

Lemma In_tail_indices (n k : Z) :
  In k (map (Z.add 1) (upto (n - 1))) <-> 1 <= k < n.
Proof.
  rewrite in_map_iff. split.
  - intros (m & <- & H). apply In_upto in H. lia.
  - intros H. exists (k - 1). split; [lia |]. apply In_upto. lia.
Qed.

(** The rows init_scanner records are the least and the greatest vertex
    row of the polygon. *)
Lemma find_min_max_span (p : polygon) :
  1 <= npv p -> y_span p (snd (find_min p)) (snd (find_max p)).
Proof.
  intros Hn. unfold y_span, find_min, find_max.
  destruct (find_min_fold p (map (Z.add 1) (upto (npv p - 1))) 0 _ eq_refl)
    as (A1 & A2 & A3 & A4).
  destruct (find_max_fold p (map (Z.add 1) (upto (npv p - 1))) 0 _ eq_refl)
    as (B1 & B2 & B3 & B4).
  cbv zeta in *.
  split; [| split].
  - eexists. split; [| exact A1].
    destruct A2 as [-> | A2]; [lia | apply In_tail_indices in A2; lia].
  - eexists. split; [| exact B1].
    destruct B2 as [-> | B2]; [lia | apply In_tail_indices in B2; lia].
  - intros k Hk. destruct (Z.eq_dec k 0) as [-> | N].
    + split; [apply A3, dlt_irrefl | apply B3; unfold dgt; apply dlt_irrefl].
    + split; [apply A4 | apply B4]; apply In_tail_indices; lia.
Qed.




(** * Further properties *)

Import ImageSection.

(** ** Helpers *)

Lemma mod_range_shifted (a n : Z) :
  0 <= a + n -> 0 < n -> 0 <= mod_ a n < n.
Proof.
  intros Ha Hn. rewrite mod_small by lia. apply Z.mod_pos_bound. exact Hn.
Qed.

(** ** mod *)

(** X1. With a and b in the range of int, b > 0, a >= -b and a + b not
    above INT_MAX (so that the sum mod computes does not overflow), mod
    returns the mathematical (Python) modulus of a by b, which lies in
    [0, b). *)
Theorem mod_is_python_modulus (a b : Z) :
  INT_MIN <= a -> b <= INT_MAX ->
  0 < b -> - b <= a -> a + b <= INT_MAX ->
  mod_ a b = a mod b /\ 0 <= mod_ a b < b.
Proof.
  intros _ _ Hb Ha _. rewrite mod_small by lia.
  replace (a + b) with (a + 1 * b) by lia. rewrite Z.mod_add by lia.
  split; [reflexivity | apply Z.mod_pos_bound; lia].
Qed.

Lemma mod_is_python_modulus_witness :
  mod_ (-1) 4 = (-1) mod 4 /\ 0 <= mod_ (-1) 4 < 4.
Proof.
  apply mod_is_python_modulus; vm_compute; discriminate || reflexivity.
Defined.

(** Below -b the result is negative: the simplified formula is not the
    modulus there. *)
Lemma mod_below_range : mod_ (-6) 4 = -2 /\ (-6) mod 4 = 2.
Proof. split; reflexivity. Qed.

(** ** Coordinate mapper *)

Lemma base_index_range (n2 i : Z) :
  0 <= n2 ->
  0 <= base_index n2 i <= n2 /\ (0 <= i <= n2 -> base_index n2 i = i).
Proof.
  intros H. unfold base_index.
  destruct (Z.ltb_spec i 0); [lia |].
  destruct (Z.gtb_spec i n2); lia.
Qed.



(** X3. map_pixel and map_pixel_fwd report the same status for every cell, 1
    exactly when a coordinate of the stored pair is NaN, and with status 0
    both deliver the stored pair. map_pixel leaves xyout[1] as it was when
    the first coordinate is NaN. *)
Theorem map_pixel_agrees_with_fwd (pm : pixmap_t) (i j : Z)
  (xyout : double * double) :
  let c := cell pm j i in
  let '(st, out) := map_pixel pm i j xyout in
  let '(st', x, y) := map_pixel_fwd pm i j in
  st = st' /\
  st = (if undefined_pair c then 1 else 0) /\
  (x, y) = c /\
  (st = 0 -> out = c) /\
  (isnan (fst c) = true -> out = (fst c, snd xyout)).
Proof.
  unfold map_pixel, map_pixel_fwd, get_pixmap, undefined_pair. cbv zeta.
  destruct (cell pm j i) as [x y]. cbn [fst snd].
  destruct (isnan x), (isnan y); cbn; repeat split; congruence.
Qed.

(** X4. At an integral point outside the valid region map_point returns 1 and
    leaves xyout untouched, while map_point_new, which never looks at the
    valid region, still delivers the cell stored there. *)
Theorem map_point_outside_region (xout0 yout0 : double)
  (par : driz_param_t) (xyin xyout : double * double) :
  integral (fst xyin) = true -> integral (snd xyin) = true ->
  in_region par (d2i (fst xyin)) (d2i (snd xyin)) = false ->
  map_point xout0 yout0 par xyin xyout = (1, xyout) /\
  map_point_new par (fst xyin) (snd xyin) =
    map_pixel_fwd (pixmap par) (d2i (fst xyin)) (d2i (snd xyin)).
Proof.
  unfold integral, in_region, map_point, map_point_new. intros -> -> R.
  cbn [andb]. split; [| reflexivity].
  rewrite !Z.geb_leb. rewrite R. reflexivity.
Qed.

Lemma map_point_outside_region_witness :
  map_point 0%float 0%float node_par (7%float, 2%float) (1%float, 1%float)
    = (1, (1%float, 1%float)).
Proof.
  apply (map_point_outside_region 0%float 0%float node_par
           (7%float, 2%float) (1%float, 1%float));
    vm_compute; reflexivity.
Defined.

(** ** Polygon engine *)

(** A finite number minus itself is +0. *)
Lemma sub_self_finite (x : double) :
  PrimFloat.is_finite x = true -> (x - x)%float = 0%float.
Proof.
  intros F. apply FloatAxioms.Prim2SF_inj.
  rewrite FloatAxioms.sub_spec.
  unfold PrimFloat.is_finite in F. apply negb_true_iff in F.
  apply orb_false_iff in F. destruct F as [N I].
  assert (Hn : Prim2SF x <> SpecFloat.S754_nan).
  { intros E. apply isnan_spec in E. unfold isnan in E. congruence. }
  assert (Hi : forall s, Prim2SF x <> SpecFloat.S754_infinity s).
  { intros s E. unfold Prim2SF in E. rewrite N, I in E.
    destruct (PrimFloat.is_zero x); [discriminate |].
    destruct (Z.frexp x) as [r ex].
    destruct (SpecFloat.shr_fexp _ _ _ _ _) as [shr e'].
    destruct (SpecFloat.shr_m shr); discriminate. }
  destruct (Prim2SF x) as [s | s | | s m e]; try congruence.
  - destruct s; reflexivity.
  - unfold FloatAxioms.SF64sub, SpecFloat.SFsub. rewrite Z.sub_diag.
    reflexivity.
Qed.

Lemma equal_vertices_refl (x : vertex) :
  PrimFloat.is_finite (vx x) = true -> PrimFloat.is_finite (vy x) = true ->
  equal_vertices x x VERTEX_ATOL = true.
Proof.
  intros Fx Fy. unfold equal_vertices.
  rewrite (sub_self_finite _ Fx), (sub_self_finite _ Fy).
  vm_compute. reflexivity.
Qed.

(** X5. After append_vertex has returned 0 for a finite vertex, that vertex
    is (within the tolerance) the last vertex of the polygon: a vertex it
    stored is read back from the last entry in use, and appending the same
    vertex again returns 0 and changes nothing. *)
Theorem append_vertex_twice (p : polygon) (x : vertex) :
  0 <= npv p < Z.of_nat (length (v p)) ->
  PrimFloat.is_finite (vx x) = true -> PrimFloat.is_finite (vy x) = true ->
  fst (append_vertex p x) = 0 ->
  let p' := snd (append_vertex p x) in
  append_vertex p' x = (0, p') /\
  (npv p' <> npv p -> npv p' = npv p + 1 /\ rd (v p') (npv p' - 1) = x).
Proof.
  intros Hn Fx Fy R. cbv zeta.
  pose proof (append_vertex_cases p x) as C.
  destruct (append_vertex p x) as [r p'] eqn:A. cbn [fst snd] in *. subst r.
  destruct C as [[-> _] | (_ & L & -> & _)].
  - split; [exact A | congruence].
  - assert (E : rd (wr (v p) (npv p) x) (npv p + 1 - 1) = x).
    { rewrite rd_wr by lia. replace (npv p + 1 - 1) with (npv p) by lia.
      rewrite Z.eqb_refl.
      destruct (Z.ltb_spec (npv p) (Z.of_nat (length (v p)))); [| lia].
      reflexivity. }
    split.
    + unfold append_vertex. cbn [npv v]. rewrite E.
      destruct (Z.gtb_spec (npv p + 1) 0); [| lia].
      rewrite (equal_vertices_refl x Fx Fy). reflexivity.
    + intros _. cbn [npv v]. split; [reflexivity | exact E].
Qed.

Lemma append_vertex_twice_witness :
  append_vertex (snd (append_vertex low_triangle (V 2%float 2%float)))
                (V 2%float 2%float)
  = (0, snd (append_vertex low_triangle (V 2%float 2%float))).
Proof.
  apply (append_vertex_twice low_triangle (V 2%float 2%float)).
  - vm_compute. split; [discriminate | reflexivity].
  - vm_compute. reflexivity.
  - vm_compute. reflexivity.
  - vm_compute. reflexivity.
Defined.

Lemma is_poly_contained_loop_spec (p q : polygon) :
  forall (rest : list Z) (iv_ iv : Z),
    let ok a b :=
      forallb (fun j => is_point_in_hp (rd (v p) j) (rd (v q) a) (rd (v q) b))
              (upto (npv p)) in
    (is_poly_contained_loop p q rest iv_ iv = 1 <->
       (rest <> [] -> ok iv_ iv = true) /\
       (forall k, 1 <= k < Z.of_nat (length rest) ->
          ok (iv + k - 1) (iv + k) = true)) /\
    (is_poly_contained_loop p q rest iv_ iv = 1 \/
     is_poly_contained_loop p q rest iv_ iv = 0).
Proof.
  cbv zeta. induction rest as [| r rest IH]; intros iv_ iv.
  - cbn [is_poly_contained_loop length]. split; [| left; reflexivity].
    split; [| reflexivity]. intros _. split; [congruence | intros k; cbn; lia].
  - cbn [is_poly_contained_loop].
    destruct (forallb _ (upto (npv p))) eqn:F.
    + destruct (IH iv (iv + 1)) as [I1 I2]. split; [| exact I2].
      rewrite I1. cbn [length]. split.
      * intros [A B]. split; [intros _; reflexivity |].
        intros k Hk. destruct (Z.eq_dec k 1) as [-> | N].
        -- replace (iv + 1 - 1) with iv by lia. apply A.
           destruct rest; [cbn in Hk; lia | discriminate].
        -- replace (iv + k - 1) with (iv + 1 + (k - 1) - 1) by lia.
           replace (iv + k) with (iv + 1 + (k - 1)) by lia.
           apply B. lia.
      * intros [_ B]. split.
        -- intros Hr. specialize (B 1).
           replace (iv + 1 - 1) with iv in B by lia. apply B.
           destruct rest; [congruence | cbn; lia].
        -- intros k Hk. specialize (B (k + 1)).
           replace (iv + (k + 1) - 1) with (iv + 1 + k - 1) in B by lia.
           replace (iv + (k + 1)) with (iv + 1 + k) in B by lia.
           apply B. lia.
    + split; [| right; reflexivity]. split; [discriminate |].
      intros [A _]. specialize (A ltac:(discriminate)). congruence.
Qed.

(** X6. is_poly_contained returns 1 exactly when every vertex in use of p
    passes the half-plane test of every edge of q, the edges being taken
    from each vertex of q to the next, the first one from the last vertex
    to vertex 0; otherwise it returns 0. *)
Theorem is_poly_contained_spec (p q : polygon) :
  1 <= npv q ->
  (is_poly_contained p q = 1 <->
     forall i j, 0 <= i < npv q -> 0 <= j < npv p ->
       is_point_in_hp (rd (v p) j) (rd (v q) ((i - 1) mod npv q))
                      (rd (v q) i) = true) /\
  (is_poly_contained p q = 1 \/ is_poly_contained p q = 0).
Proof.
  intros Hq. unfold is_poly_contained.
  destruct (is_poly_contained_loop_spec p q (upto (npv q)) (npv q - 1) 0)
    as [S D].
  split; [| exact D]. rewrite S. rewrite upto_length.
  assert (Hne : upto (npv q) <> []).
  { intros E. apply (f_equal (@length Z)) in E. rewrite upto_length in E.
    cbn in E. lia. }
  split.
  - intros [A B] i j Hi Hj.
    destruct (Z.eq_dec i 0) as [-> | N].
    + replace ((0 - 1) mod npv q) with (npv q - 1).
      * specialize (A Hne). rewrite forallb_forall in A.
        apply A. apply In_upto. lia.
      * replace (0 - 1) with (npv q - 1 + (-1) * npv q) by lia.
        rewrite Z.mod_add by lia. rewrite Z.mod_small; lia.
    + rewrite Z.mod_small by lia.
      specialize (B i ltac:(lia)). rewrite forallb_forall in B.
      replace (0 + i - 1) with (i - 1) in B by lia.
      replace (0 + i) with i in B by lia.
      apply B. apply In_upto. lia.
  - intros H. split.
    + intros _. apply forallb_forall. intros j Hj. apply In_upto in Hj.
      specialize (H 0 j ltac:(lia) Hj).
      replace ((0 - 1) mod npv q) with (npv q - 1) in H; [exact H |].
      replace (0 - 1) with (npv q - 1 + (-1) * npv q) by lia.
      rewrite Z.mod_add by lia. rewrite Z.mod_small; lia.
    + intros k Hk. apply forallb_forall. intros j Hj. apply In_upto in Hj.
      specialize (H k j ltac:(lia) Hj).
      rewrite Z.mod_small in H by lia.
      replace (0 + k - 1) with (k - 1) by lia.
      replace (0 + k) with k by lia. exact H.
Qed.

Lemma is_poly_contained_spec_witness :
  is_poly_contained low_triangle high_triangle = 1 \/
  is_poly_contained low_triangle high_triangle = 0.
Proof.
  apply (is_poly_contained_spec low_triangle high_triangle).
  vm_compute. discriminate.
Defined.

(** X7. intersect_convex_polygons fails, with return code 1 and the result
    polygon untouched, exactly when one of the inputs has fewer than three
    vertices; in every other case it returns 0, also when the polygons do
    not overlap. *)
Theorem intersect_return_code (l : locals) (p q pq0 : polygon) :
  let r := intersect_convex_polygons l p q pq0 in
  (npv p < 3 \/ npv q < 3 -> r = (1, pq0)) /\
  (fst r = 1 -> npv p < 3 \/ npv q < 3) /\
  (fst r = 0 \/ fst r = 1).
Proof.
  cbv zeta. unfold intersect_convex_polygons.
  destruct (Z.ltb_spec (npv p) 3), (Z.ltb_spec (npv q) 3); cbn [orb fst];
    try (split; [intros _; reflexivity | split; [intros _; lia | auto]]).
  destruct (negb (is_poly_contained _ _ =? 0));
    [cbn [fst]; split; [lia | split; [discriminate | auto]] |].
  destruct (negb (is_poly_contained _ _ =? 0));
    [cbn [fst]; split; [lia | split; [discriminate | auto]] |].
  destruct (trace_run _ _ _ _) as [[s c] lg]. cbn [fst].
  split; [lia | split; [discriminate | auto]].
Qed.

Lemma rd_in_firstn (a : list vertex) (n k : Z) :
  0 <= k < n -> n <= Z.of_nat (length a) ->
  In (rd a k) (firstn (Z.to_nat n) a).
Proof.
  intros Hk Hn. unfold rd. destruct (Z.ltb_spec k 0); [lia |].
  rewrite <- (firstn_skipn (Z.to_nat n) a) at 1.
  rewrite app_nth1 by (rewrite length_firstn; lia).
  apply nth_In. rewrite length_firstn. lia.
Qed.

Lemma orient_ccw_vertices (cm0 : vertex) (p : polygon) (k : Z) :
  3 <= npv p <= Z.of_nat (length (v p)) ->
  0 <= k < npv p ->
  exists k', 0 <= k' < npv p /\
             rd (v (orient_ccw cm0 p)) k = rd (v p) k'.
Proof.
  intros Hn Hk. destruct (orient_ccw_effect cm0 p Hn) as [T F].
  destruct (orient_test cm0 p).
  - exists k. rewrite T by reflexivity. auto.
  - destruct (F eq_refl) as (_ & _ & R). exists (npv p - 1 - k).
    rewrite R by lia. destruct (Z.ltb_spec k (npv p)); [| lia].
    split; [lia | reflexivity].
Qed.

(** A polygon simplify_polygon(orient_ccw(p)) returns only vertices of
    p. *)
Lemma normalize_vertices (cm0 : vertex) (p : polygon) (x : vertex) :
  3 <= npv p <= Z.of_nat (length (v p)) ->
  let r := simplify_polygon (orient_ccw cm0 p) in
  In x (firstn (Z.to_nat (npv r)) (v r)) ->
  In x (firstn (Z.to_nat (npv p)) (v p)).
Proof.
  intros Hn r. subst r.
  rewrite simplify_polygon_kept by (rewrite orient_ccw_npv; lia).
  rewrite in_map_iff. intros (k & <- & Hk).
  apply filter_In in Hk. destruct Hk as [Hk _]. apply In_upto in Hk.
  rewrite orient_ccw_npv in Hk.
  destruct (orient_ccw_vertices cm0 p k Hn Hk) as (k' & Hk' & ->).
  apply rd_in_firstn; lia.
Qed.

(** X8. When, after orientation, every vertex of p passes the half-plane tests
    of q (the first fast path), the intersection returned is p itself up
    to orientation and simplification: code 0, no more vertices than p,
    and every vertex of the result is a vertex of p. *)
Theorem intersect_contained_returns_p (l : locals) (p q pq0 : polygon) :
  3 <= npv p <= Z.of_nat (length (v p)) -> 3 <= npv q ->
  is_poly_contained (orient_ccw (cm_p l) p) (orient_ccw (cm_q l) q) = 1 ->
  let r := intersect_convex_polygons l p q pq0 in
  r = (0, simplify_polygon (orient_ccw (cm_p l) p)) /\
  0 <= npv (snd r) <= npv p /\
  forall x, In x (firstn (Z.to_nat (npv (snd r))) (v (snd r))) ->
            In x (firstn (Z.to_nat (npv p)) (v p)).
Proof.
  intros Hp Hq C r.
  assert (E : r = (0, simplify_polygon (orient_ccw (cm_p l) p))).
  { subst r. unfold intersect_convex_polygons.
    destruct (Z.ltb_spec (npv p) 3); [lia |].
    destruct (Z.ltb_spec (npv q) 3); [lia |]. cbn [orb].
    rewrite C. reflexivity. }
  rewrite E. cbn [snd]. split; [reflexivity |]. split.
  - pose proof (simplify_polygon_npv (orient_ccw (cm_p l) p)) as B.
    rewrite orient_ccw_npv in B. lia.
  - intros x. apply normalize_vertices. exact Hp.
Qed.

Lemma intersect_contained_returns_p_witness :
  0 <= npv (snd (intersect_convex_polygons zero_locals low_square image_box
                   blank_polygon)) <= npv low_square.
Proof.
  apply (intersect_contained_returns_p zero_locals low_square image_box
           blank_polygon).
  - vm_compute. split; discriminate.
  - vm_compute. discriminate.
  - vm_compute. reflexivity.
Defined.

Lemma trace_loop_cursors (p q : polygon) (m : Z) :
  0 < npv p -> 0 < npv q -> m = Z.max (npv p) (npv q) ->
  forall (ks : list Z) (s : trace) (count : nat) (log : list trace),
    cursors_below m (npv q) s ->
    Forall (cursors_below m (npv q)) log ->
    let '(s', _, log') := trace_loop p q ks s count log in
    cursors_below m (npv q) s' /\ Forall (cursors_below m (npv q)) log'.
Proof.
  intros Hp Hq ->. induction ks as [| k ks IH]; intros s count log C F;
    cbn [trace_loop].
  - auto.
  - pose proof (trace_step_cursors p q k s Hp Hq C) as C'.
    destruct (trace_step p q k s) as [s1 brk]. cbn [fst] in C'.
    destruct brk.
    + split; [exact C' | constructor; assumption].
    + apply IH; [exact C' | constructor; assumption].
Qed.

(** X9. Throughout the edge-tracing loop the cursors into q->v stay within
    the vertices of q in use, and the cursors into p->v are never negative
    and stay below the larger of the two vertex counts; when p and q have
    equally many vertices all four cursors stay within the vertices in
    use. *)
Theorem trace_cursors_bounded (p q pq0 : polygon) (fi : vertex) :
  1 <= npv p -> 1 <= npv q ->
  let '(_, _, log) := trace_run p q pq0 fi in
  Forall (cursors_below (Z.max (npv p) (npv q)) (npv q)) log /\
  (npv p = npv q -> forallb (cursors_in_range p q) log = true).
Proof.
  intros Hp Hq. unfold trace_run.
  pose proof (trace_loop_cursors p q _ ltac:(lia) ltac:(lia) eq_refl
                (trace_range p q) (trace_init p q pq0 fi) 0 []) as T.
  destruct (trace_loop _ _ _ _ _ _) as [[s c] lg].
  destruct T as [_ T].
  { unfold cursors_below, trace_init. cbn. lia. }
  { constructor. }
  split; [exact T |]. intros E. apply forallb_forall. intros x Hx.
  rewrite Forall_forall in T. specialize (T x Hx).
  rewrite <- E, Z.max_id in T. unfold cursors_below in T.
  unfold cursors_in_range.
  repeat match goal with
         | |- context [Z.leb ?a ?b] => destruct (Z.leb_spec a b)
         | |- context [Z.ltb ?a ?b] => destruct (Z.ltb_spec a b)
         end; cbn; try reflexivity; lia.
Qed.

Lemma trace_cursors_bounded_witness :
  let '(_, _, log) :=
    trace_run low_triangle high_triangle blank_polygon vertex0 in
  forallb (cursors_in_range low_triangle high_triangle) log = true.
Proof.
  pose proof (trace_cursors_bounded low_triangle high_triangle blank_polygon
                vertex0) as H.
  destruct (trace_run low_triangle high_triangle blank_polygon vertex0)
    as [[s c] lg].
  apply H.
  - vm_compute. discriminate.
  - vm_compute. discriminate.
  - vm_compute. reflexivity.
Defined.

(** ** Scanline scanner *)

Lemma fold_left_invariant {A B} (f : A -> B -> A) (P : A -> Prop) :
  forall (l : list B) (a : A),
    P a -> (forall a b, In b l -> P a -> P (f a b)) -> P (fold_left f l a).
Proof.
  induction l as [| b l IH]; intros a Ha Hf; cbn [fold_left]; [exact Ha |].
  apply IH.
  - apply Hf; [left; reflexivity | exact Ha].
  - intros a' b' Hb. apply Hf. right. exact Hb.
Qed.

Lemma find_min_range (p : polygon) :
  1 <= npv p -> 0 <= fst (find_min p) < npv p.
Proof.
  intros Hn. unfold find_min. apply fold_left_invariant.
  - cbn. lia.
  - intros [i y] k Hk H. apply in_map_iff in Hk.
    destruct Hk as (k0 & <- & Hk0). apply In_upto in Hk0.
    destruct (_ <. _); cbn [fst] in *; lia.
Qed.

Lemma find_max_range (p : polygon) :
  1 <= npv p -> 0 <= fst (find_max p) < npv p.
Proof.
  intros Hn. unfold find_max. apply fold_left_invariant.
  - cbn. lia.
  - intros [i y] k Hk H. apply in_map_iff in Hk.
    destruct Hk as (k0 & <- & Hk0). apply In_upto in Hk0.
    destruct (_ >. _); cbn [fst] in *; lia.
Qed.

Lemma fold_wr_length {A} (g : Z -> A) :
  forall (ks : list Z) (es : list A),
    length (fold_left (fun es k => wr es k (g k)) ks es) = length es.
Proof.
  induction ks as [| k ks IH]; intros es; cbn [fold_left]; [reflexivity |].
  rewrite IH. apply wr_length.
Qed.

Lemma init_scanner_success (p : polygon) (s : scanner) (par : driz_param_t) :
  3 <= npv p ->
  let '(n, s') := init_scanner p s par in
  n = 0 /\
  left s' = Some 0 /\ right s' = Some 0 /\
  0 <= nleft s' < npv p /\ 0 <= nright s' < npv p /\
  (s_xmin s', s_xmax s', s_ymin s', s_ymax s')
    = (xmin par, xmax par, ymin par, ymax par) /\
  overlap_valid s' = overlap_valid s /\
  length (left_edges s') = length (left_edges s) /\
  length (right_edges s') = length (right_edges s).
Proof.
  intros Hn. unfold init_scanner.
  destruct (Z.ltb_spec (npv p) 3); [lia |]. cbv zeta.
  pose proof (find_min_range p ltac:(lia)) as Rmin.
  pose proof (find_max_range p ltac:(lia)) as Rmax.
  destruct (find_min p) as [min_left min_y].
  destruct (find_max p) as [max_right max_y]. cbn [fst] in Rmin, Rmax.
  pose proof (mod_range_shifted (min_left - 1) (npv p) ltac:(lia) ltac:(lia)).
  pose proof (mod_range_shifted (min_left + 1) (npv p) ltac:(lia) ltac:(lia)).
  pose proof (mod_range_shifted (max_right - 1) (npv p) ltac:(lia) ltac:(lia)).
  pose proof (mod_range_shifted (max_right + 1) (npv p) ltac:(lia) ltac:(lia)).
  repeat match goal with
         | |- context [Z.gtb ?a ?b] => destruct (Z.gtb_spec a b)
         | |- context [Z.ltb ?a ?b] => destruct (Z.ltb_spec a b)
         | |- context [if ?c then _ else _] => destruct c
         end;
    cbn [left right nleft nright s_xmin s_xmax s_ymin s_ymax overlap_valid
         left_edges right_edges];
    rewrite !fold_wr_length;
    (split; [reflexivity |]); (split; [reflexivity |]);
    (split; [reflexivity |]); (split; [lia |]); (split; [lia |]);
    auto.
Qed.

(** X10. On a polygon with at least three vertices init_scanner returns 0,
    puts both cursors on the first edge of their chain, records the clip
    bounds of the parameters, leaves overlap_valid alone, keeps the length
    of the edge arrays, and gives each chain fewer edges than the polygon
    has vertices. *)
Theorem init_scanner_chains (p : polygon) (s : scanner) (par : driz_param_t) :
  3 <= npv p ->
  let '(n, s') := init_scanner p s par in
  n = 0 /\
  left s' = Some 0 /\ right s' = Some 0 /\
  0 <= nleft s' < npv p /\ 0 <= nright s' < npv p /\
  (s_xmin s', s_xmax s', s_ymin s', s_ymax s')
    = (xmin par, xmax par, ymin par, ymax par) /\
  overlap_valid s' = overlap_valid s /\
  length (left_edges s') = length (left_edges s) /\
  length (right_edges s') = length (right_edges s).
Proof. exact (init_scanner_success p s par). Qed.

Lemma init_scanner_chains_witness :
  let '(n, s') := init_scanner low_square blank_scanner identity_par in
  n = 0 /\ left s' = Some 0.
Proof.
  pose proof (init_scanner_chains low_square blank_scanner identity_par) as H.
  destruct (init_scanner low_square blank_scanner identity_par) as [n s'].
  destruct H as (A & B & _); [vm_compute; discriminate |].
  split; assumption.
Defined.

Lemma ended_scan_rows (s : scanner) :
  ended s ->
  forall (ys : list Z) (x12 : Z * Z),
    exists codes,
      scan_rows s ys x12 = Some codes /\
      Forall (fun c => c = 1 \/ c = 2) codes.
Proof.
  intros E. induction ys as [| y ys IH]; intros x12.
  - exists []. split; [reflexivity | constructor].
  - destruct (ended_stays s y x12 E) as (c & G & Hc).
    destruct (IH x12) as (cs & S & F).
    exists (c :: cs). cbn [scan_rows]. rewrite G, S.
    split; [reflexivity | constructor; assumption].
Qed.

(** X11. On a polygon with fewer than three vertices init_scanner returns 1,
    clears both cursors and the edge counts and sets overlap_valid to 0,
    leaving everything else in the scanner as it was; every row then asked
    of that scanner is answered with 1 or 2, never with an interval. *)
Theorem init_scanner_not_a_polygon (p : polygon) (s : scanner)
  (par : driz_param_t) :
  npv p < 3 ->
  let '(n, s') := init_scanner p s par in
  n = 1 /\
  left s' = None /\ right s' = None /\ nleft s' = 0 /\ nright s' = 0 /\
  overlap_valid s' = 0 /\
  (left_edges s', right_edges s', min_y s', max_y s')
    = (left_edges s, right_edges s, min_y s, max_y s) /\
  (s_xmin s', s_xmax s', s_ymin s', s_ymax s')
    = (s_xmin s, s_xmax s, s_ymin s, s_ymax s) /\
  forall (ys : list Z) (x12 : Z * Z),
    exists codes,
      scan_rows s' ys x12 = Some codes /\
      Forall (fun c => c = 1 \/ c = 2) codes.
Proof.
  intros Hn. unfold init_scanner.
  destruct (Z.ltb_spec (npv p) 3); [| lia].
  repeat (split; [reflexivity |]).
  apply ended_scan_rows. left. reflexivity.
Qed.

Lemma init_scanner_not_a_polygon_witness :
  fst (init_scanner blank_polygon blank_scanner identity_par) = 1.
Proof.
  pose proof (init_scanner_not_a_polygon blank_polygon blank_scanner
                identity_par) as H.
  destruct (init_scanner blank_polygon blank_scanner identity_par) as [n s'].
  apply H. vm_compute. reflexivity.
Defined.

Lemma skip_from_forward (test : edge -> bool) :
  forall (rest : list edge) (i last i' : Z) (e : edge),
    skip_from test rest i last = At i' e ->
    i <= i' < i + Z.of_nat (length rest).
Proof.
  induction rest as [| e0 rest IH]; intros i last i' e; cbn [skip_from].
  - discriminate.
  - destruct (test e0).
    + destruct (i =? last); [discriminate |].
      intros H. apply IH in H. cbn [length]. lia.
    + intros [= <- <-]. cbn [length]. lia.
Qed.

Lemma skip_edges_forward (test : edge -> bool) (edges : list edge)
  (i last i' : Z) (e : edge) :
  skip_edges test edges i last = At i' e ->
  i <= i' /\ 0 <= i' < Z.of_nat (length edges).
Proof.
  unfold skip_edges. destruct (Z.ltb_spec i 0) as [Hi | Hi]; [discriminate |].
  intros S. apply skip_from_forward in S.
  rewrite length_skipn in S. lia.
Qed.

(** X12. get_scanline_limits changes nothing in the scanner but the two
    cursors, and a cursor is only moved forward or cleared: a cursor that
    is set after the call was set before it, at the same or an earlier
    edge. When the call returns 0 or 3 both cursors are set and point to
    edges inside the arrays. *)
Theorem get_scanline_limits_advances (s s' : scanner) (y : Z)
  (x12 x12' : Z * Z) (code : Z) :
  get_scanline_limits s y x12 = Some (code, s', x12') ->
  (left_edges s', right_edges s', nleft s', nright s', min_y s', max_y s')
    = (left_edges s, right_edges s, nleft s, nright s, min_y s, max_y s) /\
  (s_xmin s', s_xmax s', s_ymin s', s_ymax s', overlap_valid s')
    = (s_xmin s, s_xmax s, s_ymin s, s_ymax s, overlap_valid s) /\
  (forall l', left s' = Some l' -> exists l, left s = Some l /\ l <= l') /\
  (forall r', right s' = Some r' -> exists r, right s = Some r /\ r <= r') /\
  (code = 0 \/ code = 3 ->
   exists l' r',
     left s' = Some l' /\ right s' = Some r' /\
     0 <= l' < Z.of_nat (length (left_edges s)) /\
     0 <= r' < Z.of_nat (length (right_edges s))).
Proof.
  unfold get_scanline_limits. cbv zeta.
  assert (Same : forall c,
            Some (c, s, x12) = Some (code, s', x12') ->
            c = 1 \/ c = 2 ->
            (left_edges s', right_edges s', nleft s', nright s', min_y s', max_y s')
            = (left_edges s, right_edges s, nleft s, nright s, min_y s, max_y s) /\
            (s_xmin s', s_xmax s', s_ymin s', s_ymax s', overlap_valid s')
            = (s_xmin s, s_xmax s, s_ymin s, s_ymax s, overlap_valid s) /\
            (forall l', left s' = Some l' -> exists l, left s = Some l /\ l <= l') /\
            (forall r', right s' = Some r' -> exists r, right s = Some r /\ r <= r') /\
            (code = 0 \/ code = 3 ->
             exists l' r',
               left s' = Some l' /\ right s' = Some r' /\
               0 <= l' < Z.of_nat (length (left_edges s)) /\
               0 <= r' < Z.of_nat (length (right_edges s)))).
  { intros c [= <- <- <-] Hc. split; [reflexivity |]. split; [reflexivity |].
    split; [intros l' E; exists l'; split; [exact E | lia] |].
    split; [intros r' E; exists r'; split; [exact E | lia] |].
    intros [-> | ->]; destruct Hc; discriminate. }
  assert (Cleared :
            Some (1, clear s, x12) = Some (code, s', x12') ->
            (left_edges s', right_edges s', nleft s', nright s', min_y s', max_y s')
            = (left_edges s, right_edges s, nleft s, nright s, min_y s, max_y s) /\
            (s_xmin s', s_xmax s', s_ymin s', s_ymax s', overlap_valid s')
            = (s_xmin s, s_xmax s, s_ymin s, s_ymax s, overlap_valid s) /\
            (forall l', left s' = Some l' -> exists l, left s = Some l /\ l <= l') /\
            (forall r', right s' = Some r' -> exists r, right s = Some r /\ r <= r') /\
            (code = 0 \/ code = 3 ->
             exists l' r',
               left s' = Some l' /\ right s' = Some r' /\
               0 <= l' < Z.of_nat (length (left_edges s)) /\
               0 <= r' < Z.of_nat (length (right_edges s)))).
  { intros [= <- <- <-]. split; [reflexivity |]. split; [reflexivity |].
    split; [intros l' E; discriminate |].
    split; [intros r' E; discriminate |].
    intros [? | ?]; discriminate. }
  destruct (_ && _); [intros H; apply (Same 2 H); auto |].
  destruct (_ || _); [intros H; apply (Same 2 H); auto |].
  destruct (left s) as [l |] eqn:L, (right s) as [r |] eqn:R;
    try (intros H; apply (Same 1 H); auto).
  destruct (skip_edges _ (left_edges s) l (nleft s - 1)) as [l1 el1 | |] eqn:S1;
    [| exact Cleared | discriminate].
  destruct (skip_edges _ (right_edges s) r (nright s - 1)) as [r1 er1 | |] eqn:S2;
    [| exact Cleared | discriminate].
  destruct (skip_edges _ (left_edges s) l1 (nleft s - 1)) as [l2 el2 | |] eqn:S3;
    [| exact Cleared | discriminate].
  destruct (skip_edges _ (right_edges s) r1 (nright s - 1)) as [r2 er2 | |] eqn:S4;
    [| exact Cleared | discriminate].
  apply skip_edges_forward in S1, S2, S3, S4.
  destruct (limits _ _ _ _ _ _) as [c x]. intros [= <- <- <-].
  cbn [set_cursors left right left_edges right_edges nleft nright min_y max_y
       s_xmin s_xmax s_ymin s_ymax overlap_valid].
  split; [reflexivity |]. split; [reflexivity |].
  split; [intros l' [= <-]; exists l; split; [reflexivity | lia] |].
  split; [intros r' [= <-]; exists r; split; [reflexivity | lia] |].
  intros _. exists l2, r2. repeat split; lia.
Qed.

Lemma get_scanline_limits_advances_witness :
  exists l' r',
    left (set_cursors low_scanner 0 0) = Some l' /\
    right (set_cursors low_scanner 0 0) = Some r' /\
    0 <= l' < Z.of_nat (length (left_edges low_scanner)) /\
    0 <= r' < Z.of_nat (length (right_edges low_scanner)).
Proof.
  refine (proj2 (proj2 (proj2 (proj2
    (get_scanline_limits_advances low_scanner (set_cursors low_scanner 0 0)
       1 (0, 0) (0, 3) 0 _)))) _).
  - vm_compute. reflexivity.
  - left. reflexivity.
Defined.

(** ** Image section *)

Lemma In_range (a b k : Z) : In k (range a b) <-> a <= k <= b.
Proof.
  unfold range. rewrite in_map_iff. split.
  - intros (m & <- & H). apply In_upto in H. lia.
  - intros H. exists (k - a). split; [lia |]. apply In_upto. lia.
Qed.

Lemma range_empty (a b : Z) : b < a -> range a b = [].
Proof. intros H. unfold range. rewrite upto_nonpos by lia. reflexivity. Qed.

Lemma range_snoc (a b : Z) : a <= b -> range a b = range a (b - 1) ++ [b].
Proof.
  intros H. unfold range.
  replace (b - a + 1) with (b - 1 - a + 1 + 1) by lia.
  rewrite upto_succ by lia. rewrite map_app. cbn [map].
  do 2 f_equal. lia.
Qed.

Lemma range_cons (a b : Z) : a <= b -> range a b = a :: range (a + 1) b.
Proof.
  intros H. remember (Z.to_nat (b - a)) as n eqn:E.
  revert b H E. induction n as [| n IH]; intros b H E.
  - assert (b = a) by lia. subst b.
    rewrite range_snoc, (range_empty a (a - 1)), (range_empty (a + 1)) by lia.
    reflexivity.
  - rewrite range_snoc by lia. rewrite (IH (b - 1)) by lia.
    rewrite (range_snoc (a + 1) b) by lia. reflexivity.
Qed.

Lemma first_defined_in (pm : pixmap_t) (j : Z) :
  forall (cols : list Z) (i0 : Z),
    first_defined pm j cols = Some i0 ->
    In i0 cols /\ defined_cell pm j i0 = true.
Proof.
  induction cols as [| c cols IH]; intros i0; cbn [first_defined].
  - discriminate.
  - destruct (defined_cell pm j c) eqn:D.
    + intros [= <-]. split; [left; reflexivity | exact D].
    + intros H. apply IH in H. destruct H. split; [right |]; assumption.
Qed.

Lemma first_defined_none (pm : pixmap_t) (j : Z) :
  forall cols : list Z,
    (forall i, In i cols -> defined_cell pm j i = false) ->
    first_defined pm j cols = None.
Proof.
  induction cols as [| c cols IH]; intros H; cbn [first_defined].
  - reflexivity.
  - rewrite (H c) by (left; reflexivity). apply IH.
    intros i Hi. apply H. right. exact Hi.
Qed.

(** The forward inner loop stops at or before any defined cell of the
    row, the backward one at or after it. *)
Lemma first_defined_forward (pm : pixmap_t) (j i : Z) :
  defined_cell pm j i = true ->
  forall (n : nat) (a b : Z),
    n = Z.to_nat (b - a + 1) -> a <= i <= b ->
    exists i0, first_defined pm j (range a b) = Some i0 /\ a <= i0 <= i.
Proof.
  intros D. induction n as [| n IH]; intros a b E H; [lia |].
  rewrite range_cons by lia. cbn [first_defined].
  destruct (defined_cell pm j a) eqn:Da.
  - exists a. split; [reflexivity | lia].
  - assert (i <> a) by congruence.
    destruct (IH (a + 1) b ltac:(lia) ltac:(lia)) as (i0 & F & B).
    exists i0. split; [exact F | lia].
Qed.

Lemma first_defined_backward (pm : pixmap_t) (j i : Z) :
  defined_cell pm j i = true ->
  forall (n : nat) (a b : Z),
    n = Z.to_nat (b - a + 1) -> a <= i <= b ->
    exists i0, first_defined pm j (rev (range a b)) = Some i0 /\ i <= i0 <= b.
Proof.
  intros D. induction n as [| n IH]; intros a b E H; [lia |].
  rewrite range_snoc by lia. rewrite rev_app_distr. cbn [rev app first_defined].
  destruct (defined_cell pm j b) eqn:Db.
  - exists b. split; [reflexivity | lia].
  - assert (i <> b) by congruence.
    destruct (IH a (b - 1) ltac:(lia) ltac:(lia)) as (i0 & F & B).
    exists i0. split; [exact F | lia].
Qed.

Lemma shrink_low_step (pm : pixmap_t) (i1 i2 : Z) (acc : Z * Z) (j : Z) :
  let acc' := shrink_low pm i1 i2 acc j in
  fst acc' <= fst acc /\ snd acc' <= snd acc /\
  (i1 <= fst acc -> i1 <= fst acc') /\
  (forall lo, lo <= j -> lo <= snd acc -> lo <= snd acc') /\
  (forall i, i1 <= i <= i2 -> defined_cell pm j i = true ->
     fst acc' <= i /\ snd acc' <= j).
Proof.
  cbv zeta. unfold shrink_low.
  destruct (first_defined pm j (range i1 i2)) as [i0 |] eqn:F.
  - pose proof (first_defined_in _ _ _ _ F) as [I _]. apply In_range in I.
    cbn [fst snd].
    destruct (Z.ltb_spec i0 (fst acc)), (Z.ltb_spec j (snd acc));
      repeat split; try lia;
      destruct (first_defined_forward pm j i H2 _ i1 i2 eq_refl H1)
        as (i0' & F' & B); rewrite F in F'; injection F' as <-; lia.
  - repeat split; try lia;
      destruct (first_defined_forward pm j i H0 _ i1 i2 eq_refl H)
        as (i0' & F' & B); congruence.
Qed.

Lemma shrink_high_step (pm : pixmap_t) (i1 i2 : Z) (acc : Z * Z) (j : Z) :
  let acc' := shrink_high pm i1 i2 acc j in
  fst acc <= fst acc' /\ snd acc <= snd acc' /\
  (fst acc <= i2 -> fst acc' <= i2) /\
  (forall hi, j <= hi -> snd acc <= hi -> snd acc' <= hi) /\
  (forall i, i1 <= i <= i2 -> defined_cell pm j i = true ->
     i <= fst acc' /\ j <= snd acc').
Proof.
  cbv zeta. unfold shrink_high.
  destruct (first_defined pm j (rev (range i1 i2))) as [i0 |] eqn:F.
  - pose proof (first_defined_in _ _ _ _ F) as [I _].
    apply in_rev, In_range in I. cbn [fst snd].
    destruct (Z.gtb_spec i0 (fst acc)), (Z.gtb_spec j (snd acc));
      repeat split; try lia;
      destruct (first_defined_backward pm j i H2 _ i1 i2 eq_refl H1)
        as (i0' & F' & B); rewrite F in F'; injection F' as <-; lia.
  - repeat split; try lia;
      destruct (first_defined_backward pm j i H0 _ i1 i2 eq_refl H)
        as (i0' & F' & B); congruence.
Qed.

Lemma shrink_low_fold (pm : pixmap_t) (i1 i2 lo : Z) :
  forall (rows : list Z) (acc : Z * Z),
    (forall j, In j rows -> lo <= j) ->
    let acc' := fold_left (shrink_low pm i1 i2) rows acc in
    fst acc' <= fst acc /\ snd acc' <= snd acc /\
    (i1 <= fst acc -> i1 <= fst acc') /\
    (lo <= snd acc -> lo <= snd acc') /\
    (forall j i, In j rows -> i1 <= i <= i2 -> defined_cell pm j i = true ->
       fst acc' <= i /\ snd acc' <= j).
Proof.
  induction rows as [| j0 rows IH]; intros acc Hlo; cbn [fold_left].
  - repeat split; try lia. all: contradiction.
  - destruct (shrink_low_step pm i1 i2 acc j0) as (S1 & S2 & S3 & S4 & S5).
    destruct (IH (shrink_low pm i1 i2 acc j0)) as (I1 & I2 & I3 & I4 & I5).
    { intros j Hj. apply Hlo. right. exact Hj. }
    cbv zeta in *.
    split; [lia |]. split; [lia |]. split; [auto |].
    split; [intros H; apply I4, (S4 lo); [apply Hlo; left; reflexivity | exact H] |].
    intros j i [<- | Hj] Hi D.
    + destruct (S5 i Hi D). lia.
    + apply (I5 j i Hj Hi D).
Qed.

Lemma shrink_high_fold (pm : pixmap_t) (i1 i2 hi : Z) :
  forall (rows : list Z) (acc : Z * Z),
    (forall j, In j rows -> j <= hi) ->
    let acc' := fold_left (shrink_high pm i1 i2) rows acc in
    fst acc <= fst acc' /\ snd acc <= snd acc' /\
    (fst acc <= i2 -> fst acc' <= i2) /\
    (snd acc <= hi -> snd acc' <= hi) /\
    (forall j i, In j rows -> i1 <= i <= i2 -> defined_cell pm j i = true ->
       i <= fst acc' /\ j <= snd acc').
Proof.
  induction rows as [| j0 rows IH]; intros acc Hhi; cbn [fold_left].
  - repeat split; try lia. all: contradiction.
  - destruct (shrink_high_step pm i1 i2 acc j0) as (S1 & S2 & S3 & S4 & S5).
    destruct (IH (shrink_high pm i1 i2 acc j0)) as (I1 & I2 & I3 & I4 & I5).
    { intros j Hj. apply Hhi. right. exact Hj. }
    cbv zeta in *.
    split; [lia |]. split; [lia |]. split; [auto |].
    split; [intros H; apply I4, (S4 hi); [apply Hhi; left; reflexivity | exact H] |].
    intros j i [<- | Hj] Hi D.
    + destruct (S5 i Hi D). lia.
    + apply (I5 j i Hj Hi D).
Qed.

(** The facts about the two passes of shrink_image_section that the
    theorems below draw on. *)
Lemma shrink_image_section_passes (pm : pixmap_t) (x0 x1 y0 y1 : Z) :
  let '(r, (imin, imax, jmin, jmax)) := shrink_image_section pm x0 x1 y0 y1 in
  imin <= imax <= x1 /\ jmin <= jmax <= y1 /\
  (x0 <= x1 -> x0 <= imin) /\ (y0 <= y1 -> y0 <= jmin) /\
  r = (if (imin >=? imax) || (jmin >=? jmax) then 1 else 0) /\
  (forall j i, y0 <= j <= y1 -> x0 <= i <= x1 ->
     defined_cell pm j i = true ->
     imin <= i <= imax /\ jmin <= j <= jmax).
Proof.
  unfold shrink_image_section. cbv zeta.
  pose proof (shrink_low_fold pm x0 x1 y0 (range y0 y1) (x1, y1)) as L.
  destruct (fold_left (shrink_low pm x0 x1) (range y0 y1) (x1, y1))
    as [imin jmin].
  pose proof (shrink_high_fold pm x0 x1 y1 (rev (range y0 y1)) (imin, jmin))
    as H.
  destruct (fold_left (shrink_high pm x0 x1) (rev (range y0 y1)) (imin, jmin))
    as [imax jmax].
  cbn [fst snd] in *.
  destruct L as (L1 & L2 & L3 & L4 & L5);
    [intros j Hj; apply In_range in Hj; lia |].
  destruct H as (H1 & H2 & H3 & H4 & H5);
    [intros j Hj; apply in_rev, In_range in Hj; lia |].
  split; [lia |]. split; [lia |]. split; [exact L3 |]. split; [exact L4 |].
  split; [reflexivity |].
  intros j i Hj Hi D.
  destruct (L5 j i) as [A B]; [apply In_range; lia | exact Hi | exact D |].
  destruct (H5 j i) as [A' B'];
    [apply in_rev; rewrite rev_involutive; apply In_range; lia
    | exact Hi | exact D |].
  lia.
Qed.






(** ** Undefined pixel maps *)

Lemma interpolate_point_undefined (par : driz_param_t) (xin yin : double) :
  (forall j i, undefined_pair (cell (pixmap par) j i) = true) ->
  fst (fst (interpolate_point par xin yin)) = 1.
Proof.
  intros U. pose proof (interpolate_point_eq par xin yin) as E.
  cbv zeta in E. rewrite E. clear E. cbn [fst].
  unfold get_pixmap.
  specialize (U (base_y par yin) (base_x par xin)).
  unfold undefined_pair in U. apply orb_true_iff in U.
  destruct U as [U | U].
  - rewrite bilinear_nan; [reflexivity |]. rewrite U. reflexivity.
  - rewrite (bilinear_nan (snd _)); [rewrite orb_true_r; reflexivity |].
    rewrite U. reflexivity.
Qed.

Lemma map_point_new_undefined (par : driz_param_t) (xin yin : double) :
  (forall j i, undefined_pair (cell (pixmap par) j i) = true) ->
  fst (fst (map_point_new par xin yin)) = 1.
Proof.
  intros U. unfold map_point_new.
  destruct (_ && _); [| apply interpolate_point_undefined, U].
  unfold map_pixel_fwd. specialize (U (d2i yin) (d2i xin)).
  unfold undefined_pair in U. destruct (cell _ _ _) as [x y].
  cbn [fst snd] in *. rewrite U. reflexivity.
Qed.

(** X16. With a pixel map that is undefined everywhere, invert_pixmap returns 1
    without writing the output point as soon as its loop is entered: the
    first sample already fails. *)
Theorem invert_pixmap_undefined_map (par : driz_param_t)
  (xyout xyin : double * double) :
  (forall j i, undefined_pair (cell (pixmap par) j i) = true) ->
  loop_test (bracket_init par) = true ->
  invert_pixmap par xyout xyin = (1, xyin).
Proof.
  intros U T. unfold invert_pixmap, invert_pixmap_fuel.
  change (Z.to_nat nmax_iter) with (S 49). cbn [golden_loop]. rewrite T.
  unfold loop_body.
  match goal with
  | |- context [eval_inversion ?p ?x ?y ?r] =>
      assert (E : eval_inversion p x y r = None)
  end.
  { unfold eval_inversion.
    match goal with
    | |- context [interpolate_point ?p ?x ?y] =>
        pose proof (interpolate_point_undefined p x y U) as I;
        destruct (interpolate_point p x y) as [[st xo] yo]
    end.
    cbn [fst] in I. subst st. reflexivity. }
  rewrite E. reflexivity.
Qed.

Lemma invert_pixmap_undefined_map_witness :
  invert_pixmap undefined_par (1%float, 1%float) (7%float, 7%float)
    = (1, (7%float, 7%float)).
Proof.
  apply invert_pixmap_undefined_map.
  - intros j i. reflexivity.
  - vm_compute. reflexivity.
Defined.

(** X17. With a pixel map that is undefined everywhere the forward mapping of
    the first corner fails; init_image_scanner then clears overlap_valid,
    sets the scanner up from the outline of the input image itself and
    returns 0, not an error. *)
Theorem init_image_scanner_undefined_map (fr : frame) (par : driz_param_t)
  (s0 : scanner) :
  (forall j i, undefined_pair (cell (pixmap par) j i) = true) ->
  overlap_succeeds fr par s0 = false /\
  init_image_scanner fr par s0 =
    (let '(n, s) := init_scanner (input_box par (f_inpq fr))
                                 (set_overlap_valid s0 0) par in
     (n, s,
      MAX 0 (d2i (min_y s + 0.5 + 2.0 * MAX_INV_ERR)%float),
      MIN (s_ymax s) (d2i (max_y s + 2.0 * MAX_INV_ERR)%float))) /\
  fst (fst (fst (init_image_scanner fr par s0))) = 0 /\
  overlap_valid (snd (fst (fst (init_image_scanner fr par s0)))) = 0.
Proof.
  intros U.
  assert (O : overlap_polygon fr par s0
              = (input_box par (f_inpq fr), set_overlap_valid s0 0)).
  { unfold overlap_polygon. change (upto 4) with [0; 1; 2; 3].
    cbn [map_corners]. unfold map_to_output_vertex.
    match goal with
    | |- context [map_point_new ?p ?x ?y] =>
        pose proof (map_point_new_undefined p x y U) as M;
        destruct (map_point_new p x y) as [[st xo] yo]
    end.
    cbn [fst] in M. subst st. reflexivity. }
  assert (E : init_image_scanner fr par s0 =
              (let '(n, s) := init_scanner (input_box par (f_inpq fr))
                                           (set_overlap_valid s0 0) par in
               (n, s,
                MAX 0 (d2i (min_y s + 0.5 + 2.0 * MAX_INV_ERR)%float),
                MIN (s_ymax s) (d2i (max_y s + 2.0 * MAX_INV_ERR)%float)))).
  { unfold init_image_scanner. rewrite O. reflexivity. }
  split; [unfold overlap_succeeds; rewrite O; reflexivity |].
  split; [exact E |]. rewrite E.
  pose proof (init_scanner_success (input_box par (f_inpq fr))
                (set_overlap_valid s0 0) par) as C.
  destruct (init_scanner _ _ _) as [n s]. cbn [fst snd].
  destruct C as (C1 & _ & _ & _ & _ & _ & C2 & _).
  { unfold input_box. cbn [npv]. lia. }
  split; [exact C1 | exact C2].
Qed.

Lemma init_image_scanner_undefined_map_witness :
  fst (fst (fst (init_image_scanner blank_frame undefined_par blank_scanner)))
    = 0.
Proof.
  refine (proj1 (proj2 (proj2
    (init_image_scanner_undefined_map blank_frame undefined_par blank_scanner
       _)))).
  intros j i. reflexivity.
Defined.

Lemma overlap_polygon_cases (fr : frame) (par : driz_param_t) (s0 : scanner) :
  let '(inpq, s1) := overlap_polygon fr par s0 in
  (s1 = set_overlap_valid s0 0 /\ npv inpq = 4) \/
  s1 = set_overlap_valid s0 1.
Proof.
  unfold overlap_polygon.
  destruct (map_corners _ _ _ _); [| left; split; reflexivity].
  destruct (intersect_convex_polygons _ _ _ _) as [r pq].
  destruct (negb (r =? 0)); [left; split; reflexivity |].
  destruct (map_back _ _ _ _ _) as [a ok].
  destruct ok; [right; reflexivity | left; split; reflexivity].
Qed.

(** X18. The return code of init_image_scanner is that of init_scanner alone: a
    failure of the forward mapping, of the intersection or of an inversion
    leaves a four-vertex polygon for the scanner and the code 0, and is
    reported only through overlap_valid = 0. The code 1 means that all
    three stages succeeded and left fewer than three vertices; the scanner
    then has overlap_valid = 0 and cleared cursors. *)
Theorem init_image_scanner_status (fr : frame) (par : driz_param_t)
  (s0 : scanner) :
  let '(n, s, _, _) := init_image_scanner fr par s0 in
  (n = 0 \/ n = 1) /\
  (n = 1 ->
     overlap_succeeds fr par s0 = true /\ overlap_valid s = 0 /\
     left s = None /\ right s = None) /\
  (n = 0 ->
     overlap_valid s = (if overlap_succeeds fr par s0 then 1 else 0) /\
     left s = Some 0 /\ right s = Some 0) /\
  (overlap_succeeds fr par s0 = false -> n = 0 /\ overlap_valid s = 0).
Proof.
  unfold init_image_scanner, overlap_succeeds.
  pose proof (overlap_polygon_cases fr par s0) as C.
  destruct (overlap_polygon fr par s0) as [inpq s1]. cbn [snd].
  pose proof (init_scanner_success inpq s1 par) as S.
  pose proof (init_scanner_rows inpq s1 par) as R.
  assert (F : npv inpq < 3 ->
              init_scanner inpq s1 par =
              (1, mkScanner (left_edges s1) (right_edges s1) None None 0 0
                    (min_y s1) (max_y s1) (s_xmin s1) (s_xmax s1) (s_ymin s1)
                    (s_ymax s1) 0)).
  { intros H. unfold init_scanner.
    destruct (Z.ltb_spec (npv inpq) 3); [reflexivity | lia]. }
  destruct (Z.lt_ge_cases (npv inpq) 3) as [Lt | Ge].
  - rewrite (F Lt) in *. cbn [left right overlap_valid].
    destruct C as [[-> C] | ->]; [lia |]. cbn [overlap_valid set_overlap_valid].
    split; [right; reflexivity |].
    split; [intros _; repeat split |].
    split; [discriminate | discriminate].
  - destruct (init_scanner inpq s1 par) as [n s].
    destruct (S ltac:(lia)) as (-> & L & Rr & _ & _ & _ & V & _).
    rewrite V, L, Rr.
    split; [left; reflexivity |]. split; [discriminate |].
    destruct C as [[-> _] | ->]; cbn [overlap_valid set_overlap_valid];
      (split; [intros _; repeat split |]); [intros _; split; reflexivity |].
    discriminate.
Qed.
